(** * MuddySwamp control layer: controllers, receivers and their composites

    A shallow embedding of [control.py].  Python objects are identified by
    natural numbers (object identity), their mutable fields live in stores
    that every operation threads explicitly, and a call that can raise or
    suspend returns a [result]. *)

From Stdlib Require Import Ascii String Arith Bool Lia PeanoNat List.
Import ListNotations.

#[local] Set Warnings "-register-all".

(** ** Values shared by all classes *)

(** Commands and messages are text lines. *)
Definition Cmd := string.
Definition Msg := string.

Inductive exn := AttributeError.

(** Outcome of a call: a value, a raised exception, or a caller that is
    suspended for ever ([queue.Queue.get] on an empty queue). *)
Inductive result (A : Type) :=
| Ok (a : A)
| Raise (e : exn)
| Blocked.
Arguments Ok {A} a.
Arguments Raise {A} e.
Arguments Blocked {A}.

(** Store update at one object. *)
Definition upd {A : Type} (f : nat -> A) (k : nat) (v : A) : nat -> A :=
  fun x => if Nat.eqb x k then v else f x.

(** [queue.Queue]: [put] appends, [get] takes the head, [empty] tests. *)
Module Queue.
Definition empty {A : Type} (q : list A) : bool :=
  match q with [] => true | _ :: _ => false end.
Definition put {A : Type} (q : list A) (x : A) : list A := q ++ [x].
Definition get {A : Type} (q : list A) : option (A * list A) :=
  match q with [] => None | x :: q' => Some (x, q') end.
End Queue.

(** ** class Player(Controller) *)
Module Player.

(** The back-reference [receiver] names the driven object: the group
    receiver itself or one plain receiver. *)
Inductive driven := Group | Single (rec : nat).

Record t := mk {
  receiver : option driven;
  _command_queue : list Cmd;
  _message_queue : list Msg }.

Definition fresh : t := mk None [] [].

Definition set_receiver (p : t) (r : option driven) : t :=
  mk r (_command_queue p) (_message_queue p).
Definition set_commands (p : t) (q : list Cmd) : t :=
  mk (receiver p) q (_message_queue p).

Definition has_cmd (p : t) : bool := negb (Queue.empty (_command_queue p)).
Definition has_msg (p : t) : bool := negb (Queue.empty (_message_queue p)).

Definition read_cmd (p : t) : result (Cmd * t) :=
  match Queue.get (_command_queue p) with
  | None => Blocked
  | Some (cmd, q) => Ok (cmd, set_commands p q)
  end.

Definition write_msg (p : t) (msg : Msg) : t :=
  mk (receiver p) (_command_queue p) (Queue.put (_message_queue p) msg).

End Player.

(** The store of simple controllers, by object identity. *)
Definition Players := nat -> Player.t.

(** ** class MultiController(Controller) *)
Module MultiController.

(** A controller is a simple one (a [Player], or any other controller that
    keeps a private command queue, such as a group's [DummyController]) or a
    [MultiController] holding [_ctrl_list]. *)
Inductive Controller :=
| Leaf (id : nat)
| Multi (_ctrl_list : list Controller).

(** [isinstance(ctrl, MultiController)] *)
Definition is_multi (c : Controller) : bool :=
  match c with Multi _ => true | Leaf _ => false end.

(** [__iter__]: yields the elements of [_ctrl_list]. *)
Definition iter (c : Controller) : list Controller :=
  match c with Multi l => l | Leaf _ => [] end.

(** The [for ctrl in controllers] loop of [__init__], with the list built so
    far as accumulator. *)
Fixpoint init_loop (_ctrl_list controllers : list Controller) : list Controller :=
  match controllers with
  | [] => _ctrl_list
  | ctrl :: rest =>
      if is_multi ctrl
      then init_loop (_ctrl_list ++ iter ctrl) rest
      else init_loop (_ctrl_list ++ [ctrl]) rest
  end.

Definition init (controllers : list Controller) : Controller :=
  Multi (init_loop [] controllers).

(** [has_cmd]: a simple controller tests its queue, a composite takes
    [any] over its members. *)
Fixpoint has_cmd (h : Players) (c : Controller) : bool :=
  match c with
  | Leaf id => Player.has_cmd (h id)
  | Multi l => existsb (has_cmd h) l
  end.

(** [read_cmd]: the result is the command, or Python's [None] when the
    composite's loop falls through. *)
Fixpoint read_cmd (h : Players) (c : Controller) : result (option Cmd * Players) :=
  match c with
  | Leaf id =>
      match Player.read_cmd (h id) with
      | Ok (cmd, p) => Ok (Some cmd, upd h id p)
      | Raise e => Raise e
      | Blocked => Blocked
      end
  | Multi l =>
      (fix scan (l : list Controller) : result (option Cmd * Players) :=
         match l with
         | [] => Ok (None, h)
         | ctrl :: rest => if has_cmd h ctrl then read_cmd h ctrl else scan rest
         end) l
  end.

(** The simple controllers below a controller, left to right. *)
Fixpoint leaves (c : Controller) : list Controller :=
  match c with
  | Leaf id => [Leaf id]
  | Multi l => flat_map leaves l
  end.

Fixpoint leaf_ids (c : Controller) : list nat :=
  match c with
  | Leaf id => [id]
  | Multi l => flat_map leaf_ids l
  end.

(** What one constructor argument contributes to the new member list. *)
Definition contribution (c : Controller) : list Controller :=
  match c with Leaf id => [Leaf id] | Multi l => l end.

(** Controllers that the program can build: simple ones, and composites
    made by [__init__] from controllers built before. *)
Inductive constructed : Controller -> Prop :=
| constructed_leaf : forall id, constructed (Leaf id)
| constructed_init : forall cs, Forall constructed cs -> constructed (init cs).

(** [write_msg]: a simple controller queues the message, a composite hands
    it to each member in turn. *)
Fixpoint write_msg (h : Players) (c : Controller) (msg : Msg) : Players :=
  match c with
  | Leaf id => upd h id (Player.write_msg (h id) msg)
  | Multi l => fold_left (fun h ctrl => write_msg h ctrl msg) l h
  end.

(** [has_msg]: [any] over the members. *)
Fixpoint has_msg (h : Players) (c : Controller) : bool :=
  match c with
  | Leaf id => Player.has_msg (h id)
  | Multi l => existsb (has_msg h) l
  end.

End MultiController.

(** ** class Monoreceiver *)
Module Monoreceiver.

(** The two back-references of the attach protocol: [controller r] is the
    field [r.controller] of receiver [r], [receiver c] is the field
    [c.receiver] of controller [c]. *)
Record Heap := mkHeap {
  controller : nat -> option nat;
  receiver : nat -> option nat }.

(** Objects as their constructors leave them. *)
Definition fresh : Heap := mkHeap (fun _ => None) (fun _ => None).

(** [controller == self.controller], by identity. *)
Definition is_current (ctrl : nat) (cur : option nat) : bool :=
  match cur with Some c => Nat.eqb ctrl c | None => false end.

Definition detach (h : Heap) (self : nat) : Heap :=
  let h1 :=
    match controller h self with
    | Some c => mkHeap (controller h) (upd (receiver h) c None)
    | None => h
    end in
  mkHeap (upd (controller h1) self None) (receiver h1).

Definition attach (h : Heap) (self ctrl : nat) : Heap :=
  if is_current ctrl (controller h self) then h
  else
    let h1 := detach h self in
    let h2 := mkHeap (upd (controller h1) self (Some ctrl)) (receiver h1) in
    mkHeap (controller h2) (upd (receiver h2) ctrl (Some self)).

Inductive call := Attach (r c : nat) | Detach (r : nat).

Definition step (h : Heap) (k : call) : Heap :=
  match k with
  | Attach r c => attach h r c
  | Detach r => detach h r
  end.

Definition run (h : Heap) (ks : list call) : Heap := fold_left step ks h.

Definition symmetric (h : Heap) : Prop :=
  forall r c, controller h r = Some c <-> receiver h c = Some r.

(** Controller [c] drives nothing, or already drives [r]. *)
Definition free_for (h : Heap) (r c : nat) : bool :=
  match receiver h c with None => true | Some r' => Nat.eqb r' r end.

(** Every [attach] of the sequence is issued on a controller that is free
    for the receiver at that moment. *)
Fixpoint exclusive (h : Heap) (ks : list call) : bool :=
  match ks with
  | [] => true
  | k :: rest =>
      match k with Attach r c => free_for h r c | Detach _ => true end
      && exclusive (step h k) rest
  end.

End Monoreceiver.

(** ** class Controller: [assume_control] *)
Module Controller.

(** [Controller.assume_control(self, receiver)] for a [Monoreceiver]:
    [receiver.detach()] then [receiver.attach(self)]. *)
Definition assume_control (h : Monoreceiver.Heap) (self receiver : nat)
  : Monoreceiver.Heap :=
  Monoreceiver.attach (Monoreceiver.detach h receiver) receiver self.

(** [ctrl.receiver = receiver] *)
Definition set_receiver (h : Monoreceiver.Heap) (ctrl : nat) (r : option nat)
  : Monoreceiver.Heap :=
  Monoreceiver.mkHeap (Monoreceiver.controller h)
                      (upd (Monoreceiver.receiver h) ctrl r).

(** [MultiController.assume_control]: the inherited call, then every
    member of [_ctrl_list] is pointed at the receiver. *)
Definition multi_assume_control
  (h : Monoreceiver.Heap) (self : nat) (_ctrl_list : list nat) (receiver : nat)
  : Monoreceiver.Heap :=
  fold_left (fun h ctrl => set_receiver h ctrl (Some receiver)) _ctrl_list
            (assume_control h self receiver).

End Controller.

(** ** class Multireceiver.DummyController(Controller) *)
Module DummyController.

(** The adapter of one member.  [receiver] is the member at construction;
    like every controller's [receiver] it is cleared and set by the
    receivers that detach from and attach to the adapter.  The
    back-reference to the owning group is implicit: one group is modelled
    at a time. *)
Record t := mk {
  receiver : option nat;
  _command_queue : list Cmd }.

Definition has_cmd (d : t) : bool := negb (Queue.empty (_command_queue d)).

Definition read_cmd (d : t) : result (Cmd * t) :=
  match Queue.get (_command_queue d) with
  | None => Blocked
  | Some (cmd, q) => Ok (cmd, mk (receiver d) q)
  end.

Definition add_cmd (d : t) (cmd : Cmd) : t :=
  mk (receiver d) (Queue.put (_command_queue d) cmd).

End DummyController.

(** ** class Multireceiver(Monoreceiver) *)
Module Multireceiver.

(** What a member's [controller] field can point to: a controller outside
    the group, or the adapter the group keeps under key [rec]. *)
Inductive ctrl_ref := External (id : nat) | Adapter (rec : nat).

Definition ctrl_ref_eqb (a b : ctrl_ref) : bool :=
  match a, b with
  | External x, External y => Nat.eqb x y
  | Adapter x, Adapter y => Nat.eqb x y
  | _, _ => false
  end.

(** A member is an external collaborator; the group reads its [controller]
    field and its [str()]. *)
Record Receiver := mkReceiver {
  rec_controller : option ctrl_ref;
  rec_str : string }.

(** [_rec_dict] is a dict from member to adapter, in insertion order. *)
Definition dict := list (nat * DummyController.t).

Fixpoint dict_set (k : nat) (v : DummyController.t) (d : dict) : dict :=
  match d with
  | [] => [(k, v)]
  | (k', v') :: d' =>
      if Nat.eqb k' k then (k, v) :: d' else (k', v') :: dict_set k v d'
  end.

Fixpoint dict_get (k : nat) (d : dict) : option DummyController.t :=
  match d with
  | [] => None
  | (k', v') :: d' => if Nat.eqb k' k then Some v' else dict_get k d'
  end.

(** [del d[k]] for a key that is present; a dict holds a key once. *)
Definition dict_del (k : nat) (d : dict) : dict :=
  filter (fun e => negb (Nat.eqb (fst e) k)) d.

(** The source of a routed message: the [receiver] argument of
    [_message], a receiver or Python's [None]. *)
Definition source := option nat.

Definition source_eqb (a b : source) : bool :=
  match a, b with
  | Some x, Some y => Nat.eqb x y
  | None, None => true
  | _, _ => false
  end.

Record t := mk {
  controller : option nat;
  _rec_dict : dict;
  outgoing_size : nat;
  outgoing : list (source * Msg) }.

(** [int(n * 1.5)] for a length [n]: the product is exact in floating
    point, and truncation gives the integer quotient of [3 * n] by 2. *)
Definition capacity (n : nat) : nat := (3 * n) / 2.

Fixpoint init_loop (d : dict) (receivers : list nat) : dict :=
  match receivers with
  | [] => d
  | rec :: rest => init_loop (dict_set rec (DummyController.mk (Some rec) []) d) rest
  end.

Definition init (receivers : list nat) : t :=
  let d := init_loop [] receivers in
  mk None d (capacity (length d)) [].

(** [__iter__]: the keys of [_rec_dict]. *)
Definition iter (m : t) : list nat := map fst (_rec_dict m).

(** The group together with the objects it talks to: the external
    controllers and the members.  An external controller is a [Player]: its
    message queue records the [write_msg] calls made on it, in order, and
    its command queue is what [has_cmd] and [read_cmd] deliver. *)
Record World := mkWorld {
  self : t;
  players : Players;
  members : nat -> Receiver }.

Definition set_self (w : World) (m : t) : World :=
  mkWorld m (players w) (members w).
Definition set_controller (w : World) (c : option nat) : World :=
  set_self w (mk c (_rec_dict (self w)) (outgoing_size (self w)) (outgoing (self w))).
Definition set_dict (w : World) (d : dict) : World :=
  set_self w (mk (controller (self w)) d (outgoing_size (self w)) (outgoing (self w))).
Definition set_outgoing (w : World) (o : list (source * Msg)) : World :=
  set_self w (mk (controller (self w)) (_rec_dict (self w)) (outgoing_size (self w)) o).
Definition set_player (w : World) (id : nat) (p : Player.t) : World :=
  mkWorld (self w) (upd (players w) id p) (members w).
Definition set_member_controller (w : World) (rec : nat) (c : option ctrl_ref) : World :=
  mkWorld (self w) (players w)
          (upd (members w) rec (mkReceiver c (rec_str (members w rec)))).

(** [self.controller.write_msg(msg)] for the external controller [ext]. *)
Definition ext_write (w : World) (ext : nat) (msg : Msg) : World :=
  set_player w ext (Player.write_msg (players w ext) msg).

(** [c.receiver = r] for the controller [c] a member points to.  The
    adapter of an evicted member is no longer part of the group's state. *)
Definition set_receiver (w : World) (c : ctrl_ref) (r : option nat) : World :=
  match c with
  | External id =>
      set_player w id
        (Player.set_receiver (players w id) (option_map Player.Single r))
  | Adapter k =>
      match dict_get k (_rec_dict (self w)) with
      | Some dummy =>
          set_dict w (dict_set k (DummyController.mk r (DummyController._command_queue dummy))
                               (_rec_dict (self w)))
      | None => w
      end
  end.

(** A member's own [detach()], the body of [Monoreceiver.detach]: the
    controller it has loses its [receiver], the member its [controller]. *)
Definition member_detach (w : World) (rec : nat) : World :=
  let w1 :=
    match rec_controller (members w rec) with
    | Some c => set_receiver w c None
    | None => w
    end in
  set_member_controller w1 rec None.

(** [controller == self.controller] for a member. *)
Definition is_member_controller (w : World) (rec : nat) (c : ctrl_ref) : bool :=
  match rec_controller (members w rec) with
  | Some c' => ctrl_ref_eqb c c'
  | None => false
  end.

(** A member's own [attach(controller)], the body of
    [Monoreceiver.attach]. *)
Definition member_attach (w : World) (rec : nat) (c : ctrl_ref) : World :=
  if is_member_controller w rec c then w
  else
    let w1 := member_detach w rec in
    let w2 := set_member_controller w1 rec (Some c) in
    set_receiver w2 c (Some rec).

(** [Controller.assume_control], called on the adapter kept under [rec]:
    [receiver.detach()] then [receiver.attach(self)]. *)
Definition assume_control (w : World) (rec : nat) : World :=
  member_attach (member_detach w rec) rec (Adapter rec).

Definition detach (w : World) : World :=
  let w1 :=
    match controller (self w) with
    | Some c => set_player w c (Player.set_receiver (players w c) None)
    | None => w
    end in
  let w2 := set_controller w1 None in
  fold_left member_detach (iter (self w2)) w2.

(** [super().attach(controller)]: the body of [Monoreceiver.attach], whose
    [self.detach()] is the group's own [detach]. *)
Definition super_attach (w : World) (ctrl : nat) : World :=
  if Monoreceiver.is_current ctrl (controller (self w)) then w
  else
    let w1 := detach w in
    let w2 := set_controller w1 (Some ctrl) in
    set_player w2 ctrl (Player.set_receiver (players w2 ctrl) (Some Player.Group)).

Definition attach (w : World) (ctrl : nat) : World :=
  let w1 := super_attach w ctrl in
  fold_left assume_control (iter (self w1)) w1.

(** [rec.controller != ctrl and rec.controller is not None], where [ctrl]
    is the adapter kept under [rec]. *)
Definition taken_over (w : World) (rec : nat) : bool :=
  match rec_controller (members w rec) with
  | None => false
  | Some c => negb (ctrl_ref_eqb c (Adapter rec))
  end.

(** ["Lost connection wtih %s" % rec] *)
Definition lost_connection (w : World) (rec : nat) : Msg :=
  ("Lost connection wtih " ++ rec_str (members w rec))%string.

(** The loop of [_check_controllers] over the copy [dict(self._rec_dict)]. *)
Fixpoint check_loop (snapshot : dict) (w : World) : result World :=
  match snapshot with
  | [] => Ok w
  | (rec, _) :: rest =>
      if taken_over w rec then
        match controller (self w) with
        | None => Raise AttributeError
        | Some ext =>
            let w1 := ext_write w ext (lost_connection w rec) in
            let d := dict_del rec (_rec_dict (self w1)) in
            check_loop rest
              (set_self w1 (mk (controller (self w1)) d
                               (capacity (length d)) (outgoing (self w1))))
        end
      else check_loop rest w
  end.

Definition _check_controllers (w : World) : result World :=
  check_loop (_rec_dict (self w)) w.

(** The window after [if len(self.outgoing) > self.outgoing_size:
    self.outgoing.pop(0)]. *)
Definition trim (m : t) : list (source * Msg) :=
  if Nat.ltb (outgoing_size m) (length (outgoing m))
  then tl (outgoing m)
  else outgoing m.

(** [msg == message and rec != receiver] *)
Definition duplicate (receiver : source) (message : Msg) (entry : source * Msg) : bool :=
  String.eqb (snd entry) message && negb (source_eqb (fst entry) receiver).

(** [len(self.outgoing) == 0 or self.outgoing[-1][0] != receiver] *)
Definition needs_header (window : list (source * Msg)) (receiver : source) : bool :=
  match window with
  | [] => true
  | _ :: _ => negb (source_eqb (fst (last window (None, EmptyString))) receiver)
  end.

(** ["[%s]" % receiver] *)
Definition header (w : World) (receiver : source) : Msg :=
  match receiver with
  | Some r => ("[" ++ rec_str (members w r) ++ "]")%string
  | None => "[None]"%string
  end.

Definition _message (w : World) (receiver : source) (message : Msg) : World :=
  let window := trim (self w) in
  let w0 := set_outgoing w window in
  if existsb (duplicate receiver message) window then w0
  else
    match controller (self w0) with
    | None => w0
    | Some ext =>
        let w1 := if needs_header window receiver
                  then ext_write w0 ext (header w0 receiver)
                  else w0 in
        let w2 := ext_write w1 ext message in
        set_outgoing w2 (window ++ [(receiver, message)])
    end.

(** [DummyController.write_msg] *)
Definition write_msg (w : World) (dummy : DummyController.t) (msg : Msg) : World :=
  _message w (DummyController.receiver dummy) msg.

(** [self.multireceiver.controller.has_msg()] *)
Definition controller_has_msg (w : World) : result bool :=
  match controller (self w) with
  | None => Raise AttributeError
  | Some ext => Ok (Player.has_msg (players w ext))
  end.

(** [DummyController.has_msg]: the answer of the external controller is
    computed and dropped, [AttributeError] is swallowed, and the method
    falls off its end, which yields Python's [None]. *)
Definition has_msg (w : World) (dummy : DummyController.t) : result (option bool) :=
  match controller_has_msg w with
  | Ok _ => Ok None
  | Raise AttributeError => Ok None
  | Blocked => Blocked
  end.

(** [for dummy in self._rec_dict.values(): dummy.add_cmd(cmd)] *)
Definition add_to_all (cmd : Cmd) (d : dict) : dict :=
  map (fun e => (fst e, DummyController.add_cmd (snd e) cmd)) d.

(** The [while self.controller.has_cmd()] loop of [update], by recursion on
    the commands still queued at the external controller [ext]:
    [read_cmd] takes the first and leaves [rest]. *)
Fixpoint fan_out (pending : list Cmd) (ext : nat) (w : World) : World :=
  match pending with
  | [] => w
  | cmd :: rest =>
      let w1 := set_player w ext (Player.set_commands (players w ext) rest) in
      fan_out rest ext (set_dict w1 (add_to_all cmd (_rec_dict (self w1))))
  end.

Section MemberBehaviour.

(** What a member's [update()] does with the commands waiting at its
    controller: the messages it writes to the controller, in order, and
    the commands it leaves unread. *)
Variable member_update : nat -> list Cmd -> list Msg * list Cmd.

(** [rec.update()].  A member works on the controller its [controller]
    field names: an adapter of the group, or a controller outside it.
    Without controller the first [self.controller.has_cmd()] raises
    [AttributeError].  In [update] the members are those left by
    [_check_controllers]: each has its own adapter, which is in
    [_rec_dict], or no controller. *)
Definition update_member (w : World) (rec : nat) : World + exn :=
  match rec_controller (members w rec) with
  | None => inr AttributeError
  | Some (Adapter k) =>
      match dict_get k (_rec_dict (self w)) with
      | Some dummy =>
          let (msgs, unread) :=
            member_update rec (DummyController._command_queue dummy) in
          let dummy' := DummyController.mk (DummyController.receiver dummy) unread in
          let w1 := set_dict w (dict_set k dummy' (_rec_dict (self w))) in
          inl (fold_left (fun w m => write_msg w dummy' m) msgs w1)
      | None => inl w
      end
  | Some (External id) =>
      let p := players w id in
      let (msgs, unread) := member_update rec (Player._command_queue p) in
      inl (set_player w id
             (Player.mk (Player.receiver p) unread (Player._message_queue p ++ msgs)))
  end.

(** [for rec in self: rec.update()]: the state reached, and the exception
    that ended the loop if a member raised. *)
Fixpoint update_members (recs : list nat) (w : World) : World * option exn :=
  match recs with
  | [] => (w, None)
  | rec :: rest =>
      match update_member w rec with
      | inl w' => update_members rest w'
      | inr e => (w, Some e)
      end
  end.

Definition update (w : World) : result World :=
  match _check_controllers w with
  | Ok w1 =>
      match controller (self w1) with
      | None => Raise AttributeError
      | Some ext =>
          let w2 := fan_out (Player._command_queue (players w1 ext)) ext w1 in
          match update_members (iter (self w2)) w2 with
          | (w3, None) => Ok w3
          | (_, Some e) => Raise e
          end
      end
  | Raise e => Raise e
  | Blocked => Blocked
  end.

(** The state [update] leaves, whether it returns or raises.  The check
    raises only without external controller, before it has changed
    anything; a member raises after the check, the fan-out and the updates
    of the members before it. *)
Definition after_update (w : World) : World :=
  match _check_controllers w with
  | Ok w1 =>
      match controller (self w1) with
      | None => w1
      | Some ext =>
          let w2 := fan_out (Player._command_queue (players w1 ext)) ext w1 in
          fst (update_members (iter (self w2)) w2)
      end
  | _ => w
  end.

(** What can happen to a group: its own operations, a routed message, and
    the outside world taking a member over or queueing a command. *)
Inductive op :=
| Attach (ctrl : nat)
| Detach
| Update
| Message (rec : nat) (msg : Msg)
| TakeOver (rec : nat) (by_ctrl : nat)
| Release (rec : nat)
| Command (ctrl : nat) (cmd : Cmd).

(** One event.  A take-over is [by_ctrl.assume_control(rec)], a release
    the member's own [rec.detach()]. *)
Definition step (w : World) (o : op) : World :=
  match o with
  | Attach ctrl => attach w ctrl
  | Detach => detach w
  | Update => after_update w
  | Message rec msg => _message w (Some rec) msg
  | TakeOver rec by_ctrl => member_attach (member_detach w rec) rec (External by_ctrl)
  | Release rec => member_detach w rec
  | Command ctrl cmd =>
      set_player w ctrl
        (Player.set_commands (players w ctrl)
           (Queue.put (Player._command_queue (players w ctrl)) cmd))
  end.

Definition run (w : World) (ops : list op) : World := fold_left step ops w.

End MemberBehaviour.

(** A group just built from [receivers], among the given objects. *)
Definition start (receivers : list nat) (ps : Players) (ms : nat -> Receiver) : World :=
  mkWorld (init receivers) ps ms.

End Multireceiver.

(** ** class Player: the registry [player_ids] and its class methods *)
Module Session.

Inductive error :=
| KeyError          (* a lookup in [player_ids] of an id that is not there *)
| IdTaken           (* [Exception("ID already taken: ...")] *)
| AttributeError    (* a method called on [None] *)
| ReceiverError.    (* any other exception raised by a receiver *)

(** A call returns the state it leaves, or raises in the state reached. *)
Inductive outcome (S : Type) :=
| Returns (s : S)
| Raises (e : error) (s : S).
Arguments Returns {S} s.
Arguments Raises {S} e s.

(** [player_ids] maps a session id to a [Player] object, in insertion
    order; [objects] holds the [Player] objects by identity, and
    [allocated] is the identity the next new object gets.  The [id] field
    of a [Player] is the key it is registered under. *)
Record World := mk {
  player_ids : list (nat * nat);
  objects : Players;
  allocated : nat }.

Definition empty : World := mk [] (fun _ => Player.fresh) 0.

Fixpoint lookup (id : nat) (d : list (nat * nat)) : option nat :=
  match d with
  | [] => None
  | (k, o) :: d' => if Nat.eqb k id then Some o else lookup id d'
  end.

(** [del d[id]] *)
Fixpoint delete (id : nat) (d : list (nat * nat)) : list (nat * nat) :=
  match d with
  | [] => []
  | (k, o) :: d' => if Nat.eqb k id then d' else (k, o) :: delete id d'
  end.

(** [Player.__init__] *)
Definition init (w : World) (id : nat) : outcome World :=
  match lookup id (player_ids w) with
  | Some _ => Raises IdTaken w
  | None =>
      let self := allocated w in
      Returns (mk (player_ids w ++ [(id, self)])
                  (upd (objects w) self Player.fresh)
                  (S self))
  end.

Definition set_object (w : World) (o : nat) (p : Player.t) : World :=
  mk (player_ids w) (upd (objects w) o p) (allocated w).

Definition set_objects (w : World) (h : Players) : World :=
  mk (player_ids w) h (allocated w).

Section Receivers.

(** The receiver a [Player] drives is outside this class: its [update()]
    and [detach()] are given by what they do to the [Player] objects. *)
Variable receiver_update : Player.driven -> Players -> outcome Players.
Variable receiver_detach : Player.driven -> Players -> outcome Players.

(** [poke]: [self.receiver.update()] *)
Definition poke (w : World) (o : nat) : outcome World :=
  match Player.receiver (objects w o) with
  | None => Raises AttributeError w
  | Some r =>
      match receiver_update r (objects w) with
      | Returns h => Returns (set_objects w h)
      | Raises e h => Raises e (set_objects w h)
      end
  end.

Definition send_command (w : World) (id : nat) (command : Cmd) : outcome World :=
  match lookup id (player_ids w) with
  | None => Raises KeyError w
  | Some player =>
      let p := objects w player in
      let w1 := set_object w player
                  (Player.set_commands p (Queue.put (Player._command_queue p) command)) in
      poke w1 player
  end.

Definition remove_player (w : World) (id : nat) : outcome World :=
  match lookup id (player_ids w) with
  | None => Raises KeyError w
  | Some player =>
      let detached :=
        match Player.receiver (objects w player) with
        | None => Returns w
        | Some r =>
            match receiver_detach r (objects w) with
            | Returns h => Returns (set_objects w h)
            | Raises AttributeError h => Returns (set_objects w h)
            | Raises e h => Raises e (set_objects w h)
            end
        end in
      match detached with
      | Returns w1 => Returns (mk (delete id (player_ids w1)) (objects w1) (allocated w1))
      | Raises e w1 => Raises e w1
      end
  end.

End Receivers.

(** The inner loop of [receive_messages] for one player: while it has a
    message, take it and yield it with the id. *)
Fixpoint drain (id player : nat) (pending : list Msg) (w : World)
  : list (nat * Msg) * World :=
  match pending with
  | [] => ([], w)
  | msg :: rest =>
      let p := objects w player in
      let w1 := set_object w player
                  (Player.mk (Player.receiver p) (Player._command_queue p) rest) in
      let (ys, w2) := drain id player rest w1 in
      ((id, msg) :: ys, w2)
  end.

Fixpoint receive_loop (items : list (nat * nat)) (w : World)
  : list (nat * Msg) * World :=
  match items with
  | [] => ([], w)
  | (id, player) :: rest =>
      let (ys, w1) := drain id player (Player._message_queue (objects w player)) w in
      let (zs, w2) := receive_loop rest w1 in
      (ys ++ zs, w2)
  end.

(** [receive_messages], run to its end: the pairs it yields, and the
    state it leaves. *)
Definition receive_messages (w : World) : list (nat * Msg) * World :=
  receive_loop (player_ids w) w.

Section Calls.
Variable receiver_update : Player.driven -> Players -> outcome Players.
Variable receiver_detach : Player.driven -> Players -> outcome Players.

(** The calls a server makes on the class. *)
Inductive call :=
| New (id : nat)
| Send (id : nat) (command : Cmd)
| Receive
| Remove (id : nat).

(** The state a call leaves, whether it returns or raises. *)
Definition state_of (r : outcome World) : World :=
  match r with Returns w => w | Raises _ w => w end.

Definition step (w : World) (c : call) : World :=
  match c with
  | New id => state_of (init w id)
  | Send id command => state_of (send_command receiver_update w id command)
  | Receive => snd (receive_messages w)
  | Remove id => state_of (remove_player receiver_detach w id)
  end.

Definition run (w : World) (cs : list call) : World := fold_left step cs w.

End Calls.

(** The registry holds no id twice and no object twice, and every
    registered object has been allocated. *)
Definition well_formed (w : World) : Prop :=
  NoDup (map fst (player_ids w)) /\
  NoDup (map snd (player_ids w)) /\
  Forall (fun e => snd e < allocated w) (player_ids w).

End Session.

(** ** character.py *)

(** Python text, as far as [character.py] handles it.  A character is a
    code point below 256, which a Rocq [ascii] holds; [isspace] and
    [upper_is_same] are Python's on that range. *)
Module Text.

(** [c.isspace()]: tab, line feed, vertical tab, form feed, carriage
    return, the four separators 28 to 31, the space, and beyond ASCII the
    next-line control 133 and the no-break space 160. *)
Definition isspace (c : ascii) : bool :=
  let n := nat_of_ascii c in
  ((9 <=? n) && (n <=? 13)) || ((28 <=? n) && (n <=? 32))
  || (n =? 133) || (n =? 160).


(** [c.upper() == c].  [upper] changes the letters a to z, the micro sign
    181, and the letters 223 to 255 (the division sign 247 is none). *)
Definition upper_is_same (c : ascii) : bool :=
  let n := nat_of_ascii c in
  negb (((97 <=? n) && (n <=? 122))
        || (n =? 181)
        || ((223 <=? n) && (n <=? 255) && negb (n =? 247))).

Fixpoint lstrip (s : string) : string :=
  match s with
  | EmptyString => EmptyString
  | String c rest => if isspace c then lstrip rest else s
  end.

Fixpoint rstrip (s : string) : string :=
  match s with
  | EmptyString => EmptyString
  | String c rest =>
      match rstrip rest with
      | EmptyString => if isspace c then EmptyString else String c EmptyString
      | r => String c r
      end
  end.

(** [s.strip()] *)
Definition strip (s : string) : string := rstrip (lstrip s).

(** [s.split(" ")[0]]: the text before the first space. *)
Fixpoint first_word (s : string) : string :=
  match s with
  | EmptyString => EmptyString
  | String c rest => if Ascii.eqb c " " then EmptyString else String c (first_word rest)
  end.

(** [s[n::]] *)
Fixpoint drop (n : nat) (s : string) : string :=
  match n, s with
  | 0, _ => s
  | S n', String _ rest => drop n' rest
  | S _, EmptyString => EmptyString
  end.

(** [s] is empty or all whitespace: [s.strip() == ""]. *)
Definition blank (s : string) : bool :=
  match strip s with EmptyString => true | String _ _ => false end.

(** No character of [s] is whitespace. *)
Fixpoint no_space (s : string) : bool :=
  match s with
  | EmptyString => true
  | String c rest => negb (isspace c) && no_space rest
  end.

Definition starts_with_space (s : string) : bool :=
  match s with EmptyString => false | String c _ => isspace c end.

Fixpoint ends_with_space (s : string) : bool :=
  match s with
  | EmptyString => false
  | String c EmptyString => isspace c
  | String _ rest => ends_with_space rest
  end.

(** [s] with its spaces removed. *)
Fixpoint unspace (s : string) : string :=
  match s with
  | EmptyString => EmptyString
  | String c rest => if Ascii.eqb c " " then unspace rest else String c (unspace rest)
  end.


End Text.

Module Character.

(** The loop of [camel_to_space], with [output] as built so far. *)
Fixpoint spaced (output name : string) : string :=
  match name with
  | EmptyString => output
  | String letter rest =>
      let output :=
        if Text.upper_is_same letter then (output ++ " ")%string else output in
      spaced (output ++ String letter EmptyString)%string rest
  end.

Definition camel_to_space (name : string) : string :=
  Text.strip (spaced EmptyString name).

(** [name] with a space put before every character that [upper] leaves
    as it is. *)
Fixpoint marked (name : string) : string :=
  match name with
  | EmptyString => EmptyString
  | String letter rest =>
      if Text.upper_is_same letter
      then String " " (String letter (marked rest))
      else String letter (marked rest)
  end.

(** What goes on a controller's message queue: a text, or an exception
    object (with its message). *)
Inductive value := Text_ (s : string) | Exc (s : string).

(** [AttributeError("Command '%s' not recognized." % command)] *)
Definition not_recognized (command : string) : value :=
  Exc ("Command '" ++ command ++ "' not recognized.")%string.

(** [line[len(command)::].strip()] *)
Definition args_of (line : string) : string :=
  Text.strip (Text.drop (String.length (Text.first_word line)) line).

Section Commands.

(** The state a command method works on, and the command table
    [self.commands]: a method, called with the arguments, writes messages
    to the controller, may end by raising an exception, and leaves a
    state. *)
Variable State : Type.
Variable commands : string -> option (string -> State -> list value * option value * State).

(** [parse_command(line)]: the messages written, the exception raised if
    any, and the state left. *)
Definition parse_command (st : State) (line : string) : list value * option value * State :=
  let command := Text.first_word line in
  match commands command with
  | None => ([], Some (not_recognized command), st)
  | Some method => method (args_of line) st
  end.

(** The [while self.controller.has_cmd()] loop of [update], by recursion on
    the commands still queued; [out] is the controller's message queue. *)
Fixpoint update_loop (pending : list Cmd) (st : State) (out : list value)
  : State * list value :=
  match pending with
  | [] => (st, out)
  | line :: rest =>
      match Text.strip line with
      | EmptyString => update_loop rest st out
      | _ =>
          let '(msgs, raised, st') := parse_command st line in
          let out1 := out ++ msgs in
          let out2 := match raised with Some ex => out1 ++ [ex] | None => out1 end in
          update_loop rest st' out2
      end
  end.

(** A controller as [update] uses it: its two queues. *)
Record Ctl := mkCtl {
  ctl_commands : list Cmd;
  ctl_messages : list value }.

(** [Character.update]: without controller the first [has_cmd()] raises;
    otherwise every queued command is read and handled. *)
Definition update (st : State) (controller : option Ctl) : result (State * Ctl) :=
  match controller with
  | None => Raise AttributeError
  | Some c =>
      let (st', out) := update_loop (ctl_commands c) st (ctl_messages c) in
      Ok (st', mkCtl [] out)
  end.

End Commands.

(** The references [Character.attach] and [Character.detach] work on:
    [controller ch] is the field [controller] of character [ch];
    [receiver c] and [character c] are the fields of controller [c]. *)
Record Links := mkLinks {
  controller : nat -> option nat;
  receiver : nat -> option nat;
  character : nat -> option nat }.

(** [detach(hard_detach=False)]: without controller the assignment to
    [self.controller.receiver] raises [AttributeError] and the method
    returns. *)
Definition detach_soft (h : Links) (self : nat) : Links :=
  match controller h self with
  | None => h
  | Some c =>
      mkLinks (upd (controller h) self None) (upd (receiver h) c None) (character h)
  end.

Definition attach (h : Links) (self ctrl : nat) : Links :=
  if Monoreceiver.is_current ctrl (controller h self) then h
  else
    let h1 := detach_soft h self in
    mkLinks (upd (controller h1) self (Some ctrl)) (receiver h1)
            (upd (character h1) ctrl (Some self)).

(** The name registry [Character.names] and the [name] field of each
    character. *)
Record Names := mkNames {
  names : string -> option nat;
  name : nat -> option string }.

Inductive name_error :=
| NameTaken     (* [Exception("Name already taken.")] *)
| KeyError.     (* [del] of a name that is not in [names] *)

Definition set_names (f : string -> option nat) (k : string) (v : option nat)
  : string -> option nat :=
  fun x => if String.eqb x k then v else f x.

Definition set_name (w : Names) (self : nat) (new_name : string)
  : Names + name_error :=
  match names w new_name with
  | Some _ => inr NameTaken
  | None =>
      let freed :=
        match name w self with
        | None => Some (names w)
        | Some old =>
            match names w old with
            | Some _ => Some (set_names (names w) old None)
            | None => None
            end
        end in
      match freed with
      | None => inr KeyError
      | Some f => inl (mkNames (set_names f new_name (Some self))
                               (upd (name w) self (Some new_name)))
      end
  end.

(** Every registered name belongs to the character it names, and every
    named character is registered. *)
Definition consistent (w : Names) : Prop :=
  forall n c, names w n = Some c <-> name w c = Some n.

End Character.

Module MC := MultiController.
Module MR := Monoreceiver.
Module MU := Multireceiver.
Module CT := Controller.
Module SE := Session.
Module CH := Character.

(** ** Invariants used below *)

(** The half of the symmetry that no call can break. *)
Definition backed (h : MR.Heap) : Prop :=
  forall r c, MR.receiver h c = Some r -> MR.controller h r = Some c.

(** The same members in the same order, each with the same commands
    queued at its adapter, the same capacity and the same window. *)
Definition same_window (m m' : MU.t) : Prop :=
  map (fun e => (fst e, DummyController._command_queue (snd e))) (MU._rec_dict m') =
  map (fun e => (fst e, DummyController._command_queue (snd e))) (MU._rec_dict m) /\
  MU.outgoing_size m' = MU.outgoing_size m /\
  MU.outgoing m' = MU.outgoing m.

(** The capacity is the one of the current members, there are at most [n]
    members, and the window is at most one longer than the capacity of [n]
    members. *)
Definition bounded (n : nat) (m : MU.t) : Prop :=
  MU.outgoing_size m = MU.capacity (length (MU._rec_dict m)) /\
  length (MU._rec_dict m) <= n /\
  length (MU.outgoing m) <= MU.capacity n + 1.

(** What [receive_messages] yields for one registry entry: the player's
    queued messages, oldest first, each with the id. *)
Definition yields_of (h : Players) (e : nat * nat) : list (nat * Msg) :=
  map (pair (fst e)) (Player._message_queue (h (snd e))).

(** The members of [m'] are members of [m], and are distinct if those of
    [m] are. *)
Definition members_within (m m' : MU.t) : Prop :=
  incl (MU.iter m') (MU.iter m) /\ (NoDup (MU.iter m) -> NoDup (MU.iter m')).

(** Only references differ between [w] and [w']: the group has the same
    controller, members, queued commands, capacity and window, every
    player the same queues, and every receiver the same [str()]. *)
Definition relinked (w w' : MU.World) : Prop :=
  MU.controller (MU.self w') = MU.controller (MU.self w) /\
  same_window (MU.self w) (MU.self w') /\
  (forall id,
     Player._command_queue (MU.players w' id) = Player._command_queue (MU.players w id) /\
     Player._message_queue (MU.players w' id) = Player._message_queue (MU.players w id)) /\
  (forall r, MU.rec_str (MU.members w' r) = MU.rec_str (MU.members w r)).

(* ================================================================== *)
(** * Properties *)

Lemma upd_same {A} (f : nat -> A) k v : upd f k v k = v.
Proof. unfold upd. now rewrite Nat.eqb_refl. Qed.

Lemma upd_other {A} (f : nat -> A) k v x : x <> k -> upd f k v x = f x.
Proof. intros H. unfold upd. apply Nat.eqb_neq in H. now rewrite H. Qed.

(** ** MultiController *)

Section ControllerInduction.
Variable P : MC.Controller -> Prop.
Hypothesis P_leaf : forall id, P (MC.Leaf id).
Hypothesis P_multi : forall l, Forall P l -> P (MC.Multi l).

Lemma Controller_nested_ind : forall c, P c.
Proof.
  fix IH 1. intros [id | l].
  - apply P_leaf.
  - apply P_multi. induction l as [| c l IHl]; constructor.
    + apply IH.
    + exact IHl.
Qed.
End ControllerInduction.

Lemma init_loop_contribution (acc cs : list MC.Controller) :
  MC.init_loop acc cs = acc ++ flat_map MC.contribution cs.
Proof.
  revert acc. induction cs as [| c cs IH]; intros acc; simpl.
  - now rewrite app_nil_r.
  - destruct c as [id | l]; simpl; rewrite IH, <- app_assoc; reflexivity.
Qed.

Lemma iter_init (cs : list MC.Controller) :
  MC.iter (MC.init cs) = flat_map MC.contribution cs.
Proof. unfold MC.init. simpl. now rewrite init_loop_contribution. Qed.

Lemma flat_leaves (l : list MC.Controller) :
  Forall (fun x => MC.is_multi x = false) l -> flat_map MC.leaves l = l.
Proof.
  induction 1 as [| x l Hx _ IH]; simpl; [reflexivity |].
  destruct x as [id | m]; [| discriminate]. simpl. now rewrite IH.
Qed.

Lemma Forall_flat_map {A B} (Q : B -> Prop) (f : A -> list B) (l : list A) :
  Forall (fun a => Forall Q (f a)) l -> Forall Q (flat_map f l).
Proof.
  induction 1 as [| a l Ha _ IH]; simpl; [constructor |].
  apply Forall_app. split; assumption.
Qed.

Lemma constructed_flat :
  forall c, MC.constructed c ->
    Forall (fun x => MC.is_multi x = false) (MC.contribution c).
Proof.
  fix IH 2. intros c H. destruct H as [id | cs Hcs].
  - repeat constructor.
  - change (MC.contribution (MC.init cs)) with (MC.iter (MC.init cs)).
    rewrite iter_init. apply Forall_flat_map.
    induction Hcs as [| x l Hx _ IHl]; constructor.
    + apply IH. exact Hx.
    + exact IHl.
Qed.

Lemma constructed_leaves (c : MC.Controller) :
  MC.constructed c -> MC.leaves c = MC.contribution c.
Proof.
  intros H. pose proof (constructed_flat c H) as Hf.
  destruct c as [id | l]; simpl in *; [reflexivity |].
  now apply flat_leaves.
Qed.

(** C8. A [MultiController] built by [__init__] from controllers that were
    themselves built by the program has as member list the concatenation,
    in argument order, of its arguments' simple controllers; a composite
    argument contributes its own member list in place; no member is a
    [MultiController]; and wrapping a run of arguments into a nested
    composite leaves the member list unchanged. *)
Theorem MultiController_init_flattens (cs : list MC.Controller) :
  Forall MC.constructed cs ->
  MC.iter (MC.init cs) = flat_map MC.leaves cs /\
  MC.iter (MC.init cs) = flat_map MC.contribution cs /\
  Forall (fun x => MC.is_multi x = false) (MC.iter (MC.init cs)) /\
  (forall pre mid post,
      MC.iter (MC.init (pre ++ MC.init mid :: post)) =
      MC.iter (MC.init (pre ++ mid ++ post))).
Proof.
  intros Hcs. repeat split.
  - rewrite iter_init. induction Hcs as [| c l Hc _ IH]; simpl; [reflexivity |].
    now rewrite IH, (constructed_leaves c Hc).
  - apply iter_init.
  - rewrite iter_init. apply Forall_flat_map.
    induction Hcs as [| c l Hc _ IH]; constructor; [| exact IH].
    now apply constructed_flat.
  - intros pre mid post. rewrite !iter_init, !flat_map_app. simpl.
    now rewrite init_loop_contribution.
Qed.

Lemma MultiController_init_flattens_witness :
  let p1 := MC.Leaf 1 in
  let p2 := MC.Leaf 2 in
  let p3 := MC.Leaf 3 in
  let cs := [p1; MC.init [p2; MC.init [p3; p1]]; p2] in
  Forall MC.constructed cs /\
  MC.iter (MC.init cs) = [p1; p2; p3; p1; p2].
Proof.
  intros p1 p2 p3 cs.
  assert (H : Forall MC.constructed cs).
  { repeat first [apply Forall_nil | apply Forall_cons
                 | apply MC.constructed_leaf | apply MC.constructed_init]. }
  split; [exact H |].
  destruct (MultiController_init_flattens cs H) as [E _].
  rewrite E. reflexivity.
Defined.

Lemma has_cmd_none (h : Players) :
  forall c, MC.has_cmd h c = false ->
    forall id, In id (MC.leaf_ids c) -> Player._command_queue (h id) = [].
Proof.
  induction c as [id | l IH] using Controller_nested_ind; simpl; intros H x Hx.
  - destruct Hx as [<- | []]. unfold Player.has_cmd in H.
    destruct (Player._command_queue (h id)); [reflexivity | discriminate].
  - induction IH as [| c l Hc _ IHl]; simpl in *; [contradiction |].
    apply orb_false_iff in H as [H1 H2]. apply in_app_or in Hx as [Hx | Hx].
    + now apply Hc.
    + now apply IHl.
Qed.

(** A controller that has a command delivers the head of one of its simple
    controllers' queues and shortens that queue only. *)
Lemma read_cmd_ready (h : Players) :
  forall c, MC.has_cmd h c = true ->
    exists id cmd q,
      In id (MC.leaf_ids c) /\
      Player._command_queue (h id) = cmd :: q /\
      MC.read_cmd h c = Ok (Some cmd, upd h id (Player.set_commands (h id) q)).
Proof.
  induction c as [id | l IH] using Controller_nested_ind; simpl; intros H.
  - unfold Player.has_cmd in H. unfold Player.read_cmd.
    destruct (Player._command_queue (h id)) as [| cmd q] eqn:E; [discriminate |].
    exists id, cmd, q. simpl. auto.
  - induction IH as [| c l Hc _ IHl]; simpl in *; [discriminate |].
    destruct (MC.has_cmd h c) eqn:Ec.
    + destruct (Hc eq_refl) as (id & cmd & q & Hin & Hq & Hr).
      exists id, cmd, q. repeat split; auto. apply in_or_app. now left.
    + destruct (IHl H) as (id & cmd & q & Hin & Hq & Hr).
      exists id, cmd, q. repeat split; auto. apply in_or_app. now right.
Qed.

Lemma read_cmd_scan (h : Players) (pre : list MC.Controller) c post :
  Forall (fun x => MC.has_cmd h x = false) pre ->
  MC.has_cmd h c = true ->
  MC.read_cmd h (MC.Multi (pre ++ c :: post)) = MC.read_cmd h c.
Proof.
  intros Hpre Hc. induction Hpre as [| x pre Hx _ IH]; simpl.
  - now rewrite Hc.
  - rewrite Hx. exact IH.
Qed.

Lemma first_ready (h : Players) (l : list MC.Controller) :
  existsb (MC.has_cmd h) l = true ->
  exists pre c post,
    l = pre ++ c :: post /\
    Forall (fun x => MC.has_cmd h x = false) pre /\
    MC.has_cmd h c = true.
Proof.
  induction l as [| x l IH]; simpl; [discriminate |].
  destruct (MC.has_cmd h x) eqn:Ex; simpl; intros H.
  - exists [], x, l. repeat split; auto.
  - destruct (IH H) as (pre & c & post & -> & Hpre & Hc).
    exists (x :: pre), c, post. repeat split; auto.
Qed.

(** C7. [has_cmd] of a [MultiController] is the disjunction of its members'
    [has_cmd]; when it is true, [read_cmd] returns what [read_cmd] of the
    first member with a command returns, which is a command taken from that
    member, and the queues below every earlier member are as before. *)
Theorem MultiController_read_cmd_first_ready (h : Players) (l : list MC.Controller) :
  (MC.has_cmd h (MC.Multi l) = true <->
   exists c, In c l /\ MC.has_cmd h c = true) /\
  (MC.has_cmd h (MC.Multi l) = true ->
   exists pre c post cmd h',
     l = pre ++ c :: post /\
     Forall (fun x => MC.has_cmd h x = false) pre /\
     MC.has_cmd h c = true /\
     MC.read_cmd h (MC.Multi l) = MC.read_cmd h c /\
     MC.read_cmd h c = Ok (Some cmd, h') /\
     forall x id, In x pre -> In id (MC.leaf_ids x) -> h' id = h id).
Proof.
  split.
  - simpl. apply existsb_exists.
  - intros H. simpl in H.
    destruct (first_ready h l H) as (pre & c & post & -> & Hpre & Hc).
    destruct (read_cmd_ready h c Hc) as (id & cmd & q & Hin & Hq & Hr).
    exists pre, c, post, cmd, (upd h id (Player.set_commands (h id) q)).
    repeat split; auto.
    + now apply read_cmd_scan.
    + intros x j Hx Hj. apply upd_other. intros ->.
      rewrite Forall_forall in Hpre.
      pose proof (has_cmd_none h x (Hpre x Hx) id Hj) as E.
      congruence.
Qed.

(** C10. When no member of a [MultiController] has a command, [read_cmd]
    returns Python's [None]: it neither raises nor suspends, and the store
    of queues is the one it was given. *)
Theorem MultiController_read_cmd_none (h : Players) (l : list MC.Controller) :
  (forall c, In c l -> MC.has_cmd h c = false) ->
  MC.read_cmd h (MC.Multi l) = Ok (None, h).
Proof.
  induction l as [| c l IH]; simpl; intros H; [reflexivity |].
  rewrite (H c (or_introl eq_refl)). apply IH. intros x Hx. apply H. now right.
Qed.

Lemma MultiController_read_cmd_first_ready_witness :
  let h : Players :=
    upd (upd (fun _ => Player.fresh) 2 (Player.mk None ["look"; "walk"]%string []))
        3 (Player.mk None ["say"]%string []) in
  let l := [MC.Leaf 1; MC.Leaf 2; MC.Leaf 3] in
  MC.has_cmd h (MC.Multi l) = true /\
  exists pre c post cmd h',
    l = pre ++ c :: post /\
    Forall (fun x => MC.has_cmd h x = false) pre /\
    MC.has_cmd h c = true /\
    MC.read_cmd h (MC.Multi l) = MC.read_cmd h c /\
    MC.read_cmd h c = Ok (Some cmd, h') /\
    forall x id, In x pre -> In id (MC.leaf_ids x) -> h' id = h id.
Proof.
  intros h l. split; [reflexivity |].
  apply (proj2 (MultiController_read_cmd_first_ready h l)). reflexivity.
Defined.

Lemma MultiController_read_cmd_none_witness :
  let h : Players := upd (fun _ => Player.fresh) 7 (Player.mk None ["look"]%string []) in
  let l := [MC.Leaf 1; MC.Multi [MC.Leaf 2; MC.Leaf 3]] in
  (forall c, In c l -> MC.has_cmd h c = false) /\
  MC.read_cmd h (MC.Multi l) = Ok (None, h).
Proof.
  intros h l.
  assert (H : forall c, In c l -> MC.has_cmd h c = false).
  { intros c [<- | [<- | []]]; reflexivity. }
  split; [exact H |].
  apply (MultiController_read_cmd_none h l H).
Defined.

(** ** Monoreceiver *)

Lemma is_current_true ctrl cur : MR.is_current ctrl cur = true <-> cur = Some ctrl.
Proof.
  destruct cur as [c |]; simpl.
  - rewrite Nat.eqb_eq. split; [intros -> | intros [= ->]]; reflexivity.
  - split; discriminate.
Qed.

Lemma detach_controller (h : MR.Heap) (r x : nat) :
  MR.controller (MR.detach h r) x = if Nat.eqb x r then None else MR.controller h x.
Proof. unfold MR.detach. destruct (MR.controller h r); reflexivity. Qed.

Lemma detach_receiver (h : MR.Heap) (r c : nat) :
  MR.receiver (MR.detach h r) c =
  match MR.controller h r with
  | Some c0 => if Nat.eqb c c0 then None else MR.receiver h c
  | None => MR.receiver h c
  end.
Proof. unfold MR.detach. destruct (MR.controller h r); reflexivity. Qed.

Lemma attach_controller (h : MR.Heap) (r c : nat) : MR.controller (MR.attach h r c) r = Some c.
Proof.
  unfold MR.attach. destruct (MR.is_current c (MR.controller h r)) eqn:E.
  - now apply is_current_true.
  - simpl. apply upd_same.
Qed.

Lemma attach_fresh_receiver (h : MR.Heap) (r c : nat) :
  MR.controller h r <> Some c -> MR.receiver (MR.attach h r c) c = Some r.
Proof.
  intros H. unfold MR.attach. destruct (MR.is_current c (MR.controller h r)) eqn:E.
  - apply is_current_true in E. contradiction.
  - simpl. apply upd_same.
Qed.

Lemma attach_current (h : MR.Heap) (r c : nat) :
  MR.controller h r = Some c -> MR.attach h r c = h.
Proof.
  intros H. unfold MR.attach. apply is_current_true in H. now rewrite H.
Qed.

Lemma detach_symmetric (h : MR.Heap) (r : nat) :
  MR.symmetric h -> MR.symmetric (MR.detach h r).
Proof.
  intros S x c. rewrite detach_controller, detach_receiver.
  destruct (Nat.eqb_spec x r) as [-> | Hx].
  - split; [discriminate |]. destruct (MR.controller h r) as [c0 |] eqn:E.
    + destruct (Nat.eqb_spec c c0) as [-> | Hc]; [discriminate |].
      intros H. apply S in H. congruence.
    + intros H. apply S in H. congruence.
  - destruct (MR.controller h r) as [c0 |] eqn:E; [| apply S].
    destruct (Nat.eqb_spec c c0) as [-> | Hc]; [| apply S].
    split; [| discriminate]. intros H. apply S in E. apply S in H. congruence.
Qed.

Lemma attach_symmetric (h : MR.Heap) (r c : nat) :
  MR.symmetric h -> MR.free_for h r c = true -> MR.symmetric (MR.attach h r c).
Proof.
  intros S F. unfold MR.attach.
  destruct (MR.is_current c (MR.controller h r)) eqn:E; [exact S |].
  pose proof (detach_symmetric h r S) as D.
  assert (Hc : MR.receiver (MR.detach h r) c = None).
  { destruct (MR.receiver (MR.detach h r) c) as [r' |] eqn:Er; [| reflexivity].
    exfalso. pose proof Er as Er'. apply D in Er'.
    rewrite detach_controller in Er'.
    destruct (Nat.eqb_spec r' r) as [-> | Hr]; [discriminate |].
    rewrite detach_receiver in Er. unfold MR.free_for in F.
    destruct (MR.controller h r) as [c0 |].
    - destruct (Nat.eqb c c0); [discriminate |]. rewrite Er in F.
      apply Nat.eqb_eq in F. contradiction.
    - rewrite Er in F. apply Nat.eqb_eq in F. contradiction. }
  assert (Hr : MR.controller (MR.detach h r) r = None).
  { rewrite detach_controller. now rewrite Nat.eqb_refl. }
  set (d := MR.detach h r) in *. clearbody d.
  intros x y. simpl. unfold upd.
  destruct (Nat.eqb_spec x r) as [-> | Hx]; destruct (Nat.eqb_spec y c) as [-> | Hy].
  - split; reflexivity.
  - split; [congruence |]. intros H. apply D in H. congruence.
  - split; [| congruence]. intros H. apply D in H. congruence.
  - apply D.
Qed.

Lemma run_symmetric (ks : list MR.call) :
  forall h, MR.symmetric h -> MR.exclusive h ks = true -> MR.symmetric (MR.run h ks).
Proof.
  induction ks as [| k ks IH]; intros h S E; simpl in *; [exact S |].
  apply andb_true_iff in E as [E1 E2]. apply IH; [| exact E2].
  destruct k as [r c | r]; simpl.
  - now apply attach_symmetric.
  - now apply detach_symmetric.
Qed.

Lemma detach_backed (h : MR.Heap) (r : nat) : backed h -> backed (MR.detach h r).
Proof.
  intros B x c. rewrite detach_controller, detach_receiver.
  destruct (MR.controller h r) as [c0 |] eqn:E.
  - destruct (Nat.eqb_spec c c0) as [-> | Hc]; [discriminate |].
    intros H. apply B in H. destruct (Nat.eqb_spec x r) as [-> | Hx]; congruence.
  - intros H. apply B in H. destruct (Nat.eqb_spec x r) as [-> | Hx]; congruence.
Qed.

Lemma attach_backed (h : MR.Heap) (r c : nat) : backed h -> backed (MR.attach h r c).
Proof.
  intros B. unfold MR.attach.
  destruct (MR.is_current c (MR.controller h r)) eqn:E; [exact B |].
  pose proof (detach_backed h r B) as D.
  assert (Hr : MR.controller (MR.detach h r) r = None).
  { rewrite detach_controller. now rewrite Nat.eqb_refl. }
  set (d := MR.detach h r) in *. clearbody d.
  intros x y. simpl. unfold upd.
  destruct (Nat.eqb_spec y c) as [-> | Hy]; destruct (Nat.eqb_spec x r) as [-> | Hx];
    try congruence.
  - intros H. apply D in H. congruence.
  - apply D.
Qed.

Lemma run_backed (ks : list MR.call) : forall h, backed h -> backed (MR.run h ks).
Proof.
  induction ks as [| k ks IH]; intros h B; simpl; [exact B |].
  apply IH. destruct k; simpl; [now apply attach_backed | now apply detach_backed].
Qed.

(** C3, as the code has it.  After [r.attach(c)], [r.controller] is [c],
    and [c.receiver] is [r] whenever [c] was not already [r]'s controller;
    after [r.detach()], [r.controller] and the former controller's
    [receiver] are [None]; [r.attach(c)] with [c] already current changes
    nothing; the symmetry is kept by every sequence of calls in which each
    [attach] names a controller that drives nothing or drives that very
    receiver; and from fresh objects, [c.receiver == r] implies
    [r.controller == c] after any sequence at all. *)
Theorem Monoreceiver_attach_detach :
  (forall h r c, MR.controller (MR.attach h r c) r = Some c) /\
  (forall h r c, MR.controller h r <> Some c ->
                 MR.receiver (MR.attach h r c) c = Some r) /\
  (forall h r, MR.controller (MR.detach h r) r = None /\
               forall c, MR.controller h r = Some c ->
                         MR.receiver (MR.detach h r) c = None) /\
  (forall h r c, MR.controller h r = Some c -> MR.attach h r c = h) /\
  (forall h ks, MR.symmetric h -> MR.exclusive h ks = true ->
                MR.symmetric (MR.run h ks)) /\
  (forall ks r c, MR.receiver (MR.run MR.fresh ks) c = Some r ->
                  MR.controller (MR.run MR.fresh ks) r = Some c).
Proof.
  repeat split.
  - apply attach_controller.
  - apply attach_fresh_receiver.
  - rewrite detach_controller. now rewrite Nat.eqb_refl.
  - intros c Hc. rewrite detach_receiver, Hc. now rewrite Nat.eqb_refl.
  - apply attach_current.
  - apply run_symmetric; assumption.
  - apply run_symmetric; assumption.
  - intros ks r c. apply run_backed. intros x y; discriminate.
Qed.

Lemma Monoreceiver_attach_detach_witness :
  let ks := [MR.Attach 1 0; MR.Detach 1; MR.Attach 2 0; MR.Attach 2 5; MR.Attach 1 0] in
  MR.symmetric MR.fresh /\
  MR.exclusive MR.fresh ks = true /\
  MR.symmetric (MR.run MR.fresh ks).
Proof.
  intros ks.
  assert (S : MR.symmetric MR.fresh) by (intros r c; split; discriminate).
  assert (E : MR.exclusive MR.fresh ks = true) by reflexivity.
  repeat split; try exact E; try apply S.
  - destruct Monoreceiver_attach_detach as (_ & _ & _ & _ & H & _).
    apply (H MR.fresh ks S E).
  - destruct Monoreceiver_attach_detach as (_ & _ & _ & _ & H & _).
    apply (H MR.fresh ks S E).
Defined.

(** C3, as stated, fails: a second receiver that attaches to a controller
    takes over [c.receiver] while the first keeps [controller == c], and a
    repeated [attach] by the first is then a no-op that does not restore
    [c.receiver]. *)
Lemma Monoreceiver_shared_controller_asymmetric :
  let h := MR.run MR.fresh [MR.Attach 1 0; MR.Attach 2 0] in
  MR.controller h 1 = Some 0 /\
  MR.receiver h 0 = Some 2 /\
  ~ (MR.controller h 1 = Some 0 <-> MR.receiver h 0 = Some 1) /\
  MR.receiver (MR.attach h 1 0) 0 <> Some 1.
Proof.
  simpl. repeat split; try reflexivity.
  - intros [H _]. specialize (H eq_refl). discriminate.
  - discriminate.
Qed.

(** ** Multireceiver *)

Lemma dict_get_set_same (k : nat) (v : DummyController.t) (d : MU.dict) :
  MU.dict_get k (MU.dict_set k v d) = Some v.
Proof.
  induction d as [| [k' x] d IH]; simpl.
  - now rewrite Nat.eqb_refl.
  - destruct (Nat.eqb k' k) eqn:E; simpl; [now rewrite Nat.eqb_refl | now rewrite E].
Qed.

Lemma dict_get_set_other (k k' : nat) (v : DummyController.t) (d : MU.dict) :
  k' <> k -> MU.dict_get k' (MU.dict_set k v d) = MU.dict_get k' d.
Proof.
  intros H. induction d as [| [j x] d IH]; simpl.
  - apply not_eq_sym, Nat.eqb_neq in H. now rewrite H.
  - destruct (Nat.eqb_spec j k) as [-> | Hj]; simpl.
    + apply not_eq_sym, Nat.eqb_neq in H. now rewrite H.
    + destruct (Nat.eqb j k'); [reflexivity | exact IH].
Qed.

Lemma dict_get_in_keys (k : nat) (d : MU.dict) :
  In k (map fst d) <-> exists v, MU.dict_get k d = Some v.
Proof.
  induction d as [| [j x] d IH]; simpl.
  - split; [contradiction | intros [v H]; discriminate].
  - destruct (Nat.eqb_spec j k) as [-> | Hj].
    + split; [intros _; now exists x | auto].
    + rewrite <- IH. split; [intros [H | H]; [contradiction | exact H] | auto].
Qed.

Lemma dict_set_keys (k : nat) (v : DummyController.t) (d : MU.dict) :
  map fst (MU.dict_set k v d) =
  if existsb (Nat.eqb k) (map fst d) then map fst d else map fst d ++ [k].
Proof.
  induction d as [| [k' x] d IH]; simpl; [reflexivity |].
  rewrite (Nat.eqb_sym k k'). destruct (Nat.eqb_spec k' k) as [-> | Hk]; simpl.
  - reflexivity.
  - rewrite IH. now destruct (existsb (Nat.eqb k) (map fst d)).
Qed.

Lemma dict_set_length (k : nat) (v v' : DummyController.t) (d : MU.dict) :
  MU.dict_get k d = Some v -> length (MU.dict_set k v' d) = length d.
Proof.
  induction d as [| [k' x] d IH]; simpl; [discriminate |].
  destruct (Nat.eqb k' k); simpl; [reflexivity |]. intros H. now rewrite IH.
Qed.

Lemma existsb_eqb_in (r : nat) (l : list nat) : existsb (Nat.eqb r) l = true <-> In r l.
Proof.
  rewrite existsb_exists. split.
  - intros (x & Hx & E). apply Nat.eqb_eq in E. now subst.
  - intros H. exists r. split; [exact H | apply Nat.eqb_refl].
Qed.

Lemma filter_none {A} (f : A -> bool) (l : list A) :
  (forall x, In x l -> f x = false) -> filter f l = [].
Proof.
  induction l as [| x l IH]; intros H; simpl; [reflexivity |].
  rewrite (H x (or_introl eq_refl)). apply IH. intros y Hy. apply H. now right.
Qed.

Lemma dict_set_same_queue (k : nat) (v v' : DummyController.t) (d : MU.dict) :
  MU.dict_get k d = Some v ->
  DummyController._command_queue v' = DummyController._command_queue v ->
  map (fun e => (fst e, DummyController._command_queue (snd e))) (MU.dict_set k v' d) =
  map (fun e => (fst e, DummyController._command_queue (snd e))) d.
Proof.
  intros G Q. induction d as [| [j x] d IH]; simpl in *; [discriminate |].
  destruct (Nat.eqb_spec j k) as [-> | Hj]; simpl.
  - injection G as ->. now rewrite Q.
  - now rewrite IH.
Qed.

Lemma same_window_keys (m m' : MU.t) :
  same_window m m' ->
  MU.iter m' = MU.iter m /\ length (MU._rec_dict m') = length (MU._rec_dict m).
Proof.
  intros (E & _). unfold MU.iter. split.
  - apply (f_equal (map fst)) in E. rewrite !map_map in E. exact E.
  - apply (f_equal (@length _)) in E. now rewrite !length_map in E.
Qed.

(** *** Attach and detach only move references *)

Lemma relinked_refl (w : MU.World) : relinked w w.
Proof.
  split; [reflexivity |]. split; [repeat split |].
  split; [intros j; split; reflexivity | reflexivity].
Qed.

Lemma relinked_trans (a b c : MU.World) : relinked a b -> relinked b c -> relinked a c.
Proof.
  intros (A1 & (A2 & A3 & A4) & A5 & A6) (B1 & (B2 & B3 & B4) & B5 & B6).
  split; [congruence |]. split; [split; [| split]; congruence |]. split.
  - intros id. destruct (A5 id), (B5 id). split; congruence.
  - intros r. now rewrite B6.
Qed.

Lemma set_receiver_relinked (w : MU.World) (c : MU.ctrl_ref) (r : option nat) :
  relinked w (MU.set_receiver w c r) /\ MU.members (MU.set_receiver w c r) = MU.members w.
Proof.
  destruct c as [id | k]; simpl.
  - split; [| reflexivity].
    split; [reflexivity |]. split; [repeat split |]. split; [| reflexivity].
    intros j. simpl. unfold upd.
    destruct (Nat.eqb_spec j id) as [-> | _]; split; reflexivity.
  - destruct (MU.dict_get k (MU._rec_dict (MU.self w))) as [dummy |] eqn:G;
      [| split; [apply relinked_refl | reflexivity]].
    split; [| reflexivity].
    split; [reflexivity |]. split; [| split; [intros j; split; reflexivity | reflexivity]].
    split; [| split; reflexivity]. simpl.
    now apply (dict_set_same_queue k dummy).
Qed.

Lemma set_member_controller_relinked (w : MU.World) (x : nat) (c : option MU.ctrl_ref) :
  relinked w (MU.set_member_controller w x c).
Proof.
  split; [reflexivity |]. split; [repeat split |]. split; [intros j; split; reflexivity |].
  intros r. simpl. unfold upd.
  destruct (Nat.eqb_spec r x) as [-> | _]; reflexivity.
Qed.

Lemma member_detach_relinked (w : MU.World) (x : nat) : relinked w (MU.member_detach w x).
Proof.
  unfold MU.member_detach.
  eapply relinked_trans; [| apply set_member_controller_relinked].
  destruct (MU.rec_controller (MU.members w x)); [apply set_receiver_relinked | apply relinked_refl].
Qed.

Lemma member_attach_relinked (w : MU.World) (x : nat) (c : MU.ctrl_ref) :
  relinked w (MU.member_attach w x c).
Proof.
  unfold MU.member_attach. destruct (MU.is_member_controller w x c); [apply relinked_refl |].
  eapply relinked_trans; [apply member_detach_relinked |].
  eapply relinked_trans; [apply set_member_controller_relinked | apply set_receiver_relinked].
Qed.

Lemma assume_control_relinked (w : MU.World) (x : nat) : relinked w (MU.assume_control w x).
Proof.
  unfold MU.assume_control.
  eapply relinked_trans; [apply member_detach_relinked | apply member_attach_relinked].
Qed.

Lemma fold_relinked (f : MU.World -> nat -> MU.World) (l : list nat) :
  (forall w x, relinked w (f w x)) -> forall w, relinked w (fold_left f l w).
Proof.
  intros H. induction l as [| x l IH]; intros w; simpl; [apply relinked_refl |].
  eapply relinked_trans; [apply H | apply IH].
Qed.

(** The members' own fields. *)
Lemma member_detach_members (w : MU.World) (x r : nat) :
  MU.members (MU.member_detach w x) r =
  if Nat.eqb r x then MU.mkReceiver None (MU.rec_str (MU.members w x)) else MU.members w r.
Proof.
  unfold MU.member_detach.
  destruct (MU.rec_controller (MU.members w x)) as [c |]; simpl;
    rewrite ?(proj2 (set_receiver_relinked w c None)); reflexivity.
Qed.

Lemma ctrl_ref_eqb_eq (a b : MU.ctrl_ref) : MU.ctrl_ref_eqb a b = true <-> a = b.
Proof.
  destruct a as [x | x], b as [y | y]; simpl; rewrite ?Nat.eqb_eq;
    split; try discriminate; try congruence.
Qed.

Lemma set_member_controller_members (w : MU.World) (x : nat) (c : option MU.ctrl_ref)
    (r : nat) :
  MU.members (MU.set_member_controller w x c) r =
  if Nat.eqb r x then MU.mkReceiver c (MU.rec_str (MU.members w x)) else MU.members w r.
Proof. reflexivity. Qed.

Lemma member_attach_members (w : MU.World) (x : nat) (c : MU.ctrl_ref) (r : nat) :
  MU.rec_controller (MU.members (MU.member_attach w x c) r) =
    (if Nat.eqb r x then Some c else MU.rec_controller (MU.members w r)) /\
  (r <> x -> MU.members (MU.member_attach w x c) r = MU.members w r).
Proof.
  assert (fresh_case :
    MU.rec_controller
      (MU.members (MU.set_receiver
         (MU.set_member_controller (MU.member_detach w x) x (Some c)) c (Some x)) r) =
      (if Nat.eqb r x then Some c else MU.rec_controller (MU.members w r)) /\
    (r <> x ->
     MU.members (MU.set_receiver
         (MU.set_member_controller (MU.member_detach w x) x (Some c)) c (Some x)) r =
     MU.members w r)).
  { rewrite (proj2 (set_receiver_relinked _ c (Some x))).
    rewrite set_member_controller_members.
    destruct (Nat.eqb_spec r x) as [-> | Hr]; split; try reflexivity.
    - intros H. now contradiction H.
    - rewrite member_detach_members. apply Nat.eqb_neq in Hr. now rewrite Hr.
    - intros _. rewrite member_detach_members. apply Nat.eqb_neq in Hr. now rewrite Hr. }
  unfold MU.member_attach, MU.is_member_controller.
  destruct (MU.rec_controller (MU.members w x)) as [c' |] eqn:C; [| exact fresh_case].
  destruct (MU.ctrl_ref_eqb c c') eqn:E; [| exact fresh_case].
  apply ctrl_ref_eqb_eq in E. subst c'. clear fresh_case. split; [| reflexivity].
  destruct (Nat.eqb_spec r x) as [H | _]; [rewrite H; exact C | reflexivity].
Qed.

Lemma assume_control_members (w : MU.World) (x r : nat) :
  MU.rec_controller (MU.members (MU.assume_control w x) r) =
    (if Nat.eqb r x then Some (MU.Adapter x) else MU.rec_controller (MU.members w r)) /\
  (r <> x -> MU.members (MU.assume_control w x) r = MU.members w r).
Proof.
  unfold MU.assume_control.
  destruct (member_attach_members (MU.member_detach w x) x (MU.Adapter x) r) as [A B].
  rewrite A. clear A. split.
  - destruct (Nat.eqb r x) eqn:Hr; [reflexivity |].
    rewrite member_detach_members. now rewrite Hr.
  - intros Hr. rewrite (B Hr), member_detach_members.
    apply Nat.eqb_neq in Hr. now rewrite Hr.
Qed.

Lemma fold_member_detach_members (l : list nat) :
  forall w r,
    MU.members (fold_left MU.member_detach l w) r =
    if existsb (Nat.eqb r) l
    then MU.mkReceiver None (MU.rec_str (MU.members w r))
    else MU.members w r.
Proof.
  induction l as [| x l IH]; intros w r; simpl; [reflexivity |].
  rewrite IH, !member_detach_members.
  destruct (Nat.eqb_spec r x) as [-> | Hr]; simpl.
  - now destruct (existsb (Nat.eqb x) l).
  - reflexivity.
Qed.

Lemma fold_assume_control_members (l : list nat) :
  forall w r,
    MU.rec_controller (MU.members (fold_left MU.assume_control l w) r) =
      (if existsb (Nat.eqb r) l then Some (MU.Adapter r)
       else MU.rec_controller (MU.members w r)) /\
    (~ In r l -> MU.members (fold_left MU.assume_control l w) r = MU.members w r).
Proof.
  induction l as [| x l IH]; intros w r; simpl; [auto |].
  destruct (IH (MU.assume_control w x) r) as [A B].
  destruct (assume_control_members w x r) as [C D].
  rewrite A, C. split.
  - destruct (Nat.eqb_spec r x) as [-> | Hr]; simpl;
      now destruct (existsb (Nat.eqb _) l).
  - intros H. rewrite B by tauto. apply D. intros ->. apply H. now left.
Qed.

Lemma detach_relinked (w : MU.World) :
  same_window (MU.self w) (MU.self (MU.detach w)) /\
  MU.controller (MU.self (MU.detach w)) = None /\
  (forall id, Player._command_queue (MU.players (MU.detach w) id) =
                Player._command_queue (MU.players w id) /\
              Player._message_queue (MU.players (MU.detach w) id) =
                Player._message_queue (MU.players w id)) /\
  (forall r, MU.rec_str (MU.members (MU.detach w) r) = MU.rec_str (MU.members w r)).
Proof.
  unfold MU.detach.
  set (w1 := match MU.controller (MU.self w) with
             | Some c => MU.set_player w c (Player.set_receiver (MU.players w c) None)
             | None => w end).
  set (w2 := MU.set_controller w1 None).
  destruct (fold_relinked MU.member_detach (MU.iter (MU.self w2)) member_detach_relinked w2)
    as (A1 & A2 & A3 & A4).
  assert (S : MU.self w1 = MU.self w) by (subst w1; now destruct (MU.controller (MU.self w))).
  assert (M : MU.members w1 = MU.members w) by (subst w1; now destruct (MU.controller (MU.self w))).
  assert (P : forall id,
             Player._command_queue (MU.players w1 id) = Player._command_queue (MU.players w id) /\
             Player._message_queue (MU.players w1 id) = Player._message_queue (MU.players w id)).
  { intros id. subst w1. destruct (MU.controller (MU.self w)) as [c |]; [| auto].
    simpl. unfold upd. destruct (Nat.eqb_spec id c) as [-> | _]; auto. }
  split; [| split; [| split]].
  - destruct A2 as (B1 & B2 & B3). subst w2. simpl in *. rewrite S in *. repeat split; assumption.
  - rewrite A1. reflexivity.
  - intros id. destruct (A3 id) as [Q1 Q2]. destruct (P id) as [P1 P2].
    subst w2. simpl in *. split; congruence.
  - intros r. rewrite A4. subst w2. simpl. now rewrite M.
Qed.

Lemma detach_same_window (w : MU.World) : same_window (MU.self w) (MU.self (MU.detach w)).
Proof. apply detach_relinked. Qed.

Lemma super_attach_same_window (w : MU.World) (c : nat) :
  same_window (MU.self w) (MU.self (MU.super_attach w c)).
Proof.
  unfold MU.super_attach.
  destruct (MR.is_current c (MU.controller (MU.self w))); [repeat split |].
  destruct (detach_same_window w) as (Hd & Hs & Ho).
  repeat split; simpl; assumption.
Qed.

Lemma attach_same_window (w : MU.World) (c : nat) :
  same_window (MU.self w) (MU.self (MU.attach w c)).
Proof.
  unfold MU.attach.
  destruct (fold_relinked MU.assume_control (MU.iter (MU.self (MU.super_attach w c)))
              assume_control_relinked (MU.super_attach w c)) as (_ & (A & B & C) & _).
  destruct (super_attach_same_window w c) as (D & E & F).
  repeat split; congruence.
Qed.

(** The group's [controller] after [attach]. *)
Lemma attach_controller_set (w : MU.World) (c : nat) :
  MU.controller (MU.self (MU.attach w c)) = Some c.
Proof.
  unfold MU.attach.
  destruct (fold_relinked MU.assume_control (MU.iter (MU.self (MU.super_attach w c)))
              assume_control_relinked (MU.super_attach w c)) as (A & _).
  rewrite A. unfold MU.super_attach.
  destruct (MR.is_current c (MU.controller (MU.self w))) eqn:E.
  - now apply is_current_true.
  - reflexivity.
Qed.

(** *** The window *)

Lemma trim_length (m : MU.t) :
  length (MU.trim m) <= length (MU.outgoing m) /\
  (MU.outgoing_size m < length (MU.outgoing m) ->
   S (length (MU.trim m)) = length (MU.outgoing m)) /\
  (length (MU.outgoing m) <= MU.outgoing_size m -> MU.trim m = MU.outgoing m).
Proof.
  unfold MU.trim.
  destruct (Nat.ltb_spec (MU.outgoing_size m) (length (MU.outgoing m))) as [H | H].
  - destruct (MU.outgoing m) as [| e o]; simpl in *; [lia |]. repeat split; lia.
  - repeat split; try lia.
Qed.

Lemma source_eqb_eq (a b : MU.source) : MU.source_eqb a b = true <-> a = b.
Proof.
  destruct a as [x |], b as [y |]; simpl; rewrite ?Nat.eqb_eq;
    split; try discriminate; try congruence.
Qed.

Lemma source_eqb_neq (a b : MU.source) : MU.source_eqb a b = false <-> a <> b.
Proof.
  rewrite <- source_eqb_eq. destruct (MU.source_eqb a b); split; congruence.
Qed.

(** The three things [_message] can do. *)
Lemma message_cases (w : MU.World) (receiver : MU.source) (msg : Msg) :
  let window := MU.trim (MU.self w) in
  let w' := MU._message w receiver msg in
  MU.controller (MU.self w') = MU.controller (MU.self w) /\
  MU._rec_dict (MU.self w') = MU._rec_dict (MU.self w) /\
  MU.outgoing_size (MU.self w') = MU.outgoing_size (MU.self w) /\
  MU.members w' = MU.members w /\
  ((existsb (MU.duplicate receiver msg) window = true \/ MU.controller (MU.self w) = None) /\
   MU.outgoing (MU.self w') = window /\ MU.players w' = MU.players w
   \/
   existsb (MU.duplicate receiver msg) window = false /\
   exists ext, MU.controller (MU.self w) = Some ext /\
     MU.outgoing (MU.self w') = window ++ [(receiver, msg)] /\
     Player._message_queue (MU.players w' ext) =
       Player._message_queue (MU.players w ext)
       ++ (if MU.needs_header window receiver then [MU.header w receiver] else [])
       ++ [msg] /\
     Player._command_queue (MU.players w' ext) = Player._command_queue (MU.players w ext) /\
     Player.receiver (MU.players w' ext) = Player.receiver (MU.players w ext) /\
     forall x, x <> ext -> MU.players w' x = MU.players w x).
Proof.
  intros window w'. subst w'. unfold MU._message. fold window.
  destruct (existsb (MU.duplicate receiver msg) window) eqn:D.
  - repeat split; auto.
  - simpl. destruct (MU.controller (MU.self w)) as [ext |] eqn:C.
    + destruct (MU.needs_header window receiver) eqn:N; simpl; rewrite ?C;
        do 4 (split; [reflexivity |]);
        right; (split; [reflexivity |]); exists ext;
        unfold Queue.put; rewrite ?upd_same; simpl; rewrite ?upd_same; simpl;
        repeat split; unfold Queue.put; simpl;
        rewrite <- ?app_assoc; try reflexivity;
        intros x Hx; rewrite ?upd_other by exact Hx; reflexivity.
    + repeat split; auto.
Qed.

Lemma duplicate_exists (receiver : MU.source) (msg : Msg)
    (window : list (MU.source * Msg)) :
  existsb (MU.duplicate receiver msg) window = true <->
  exists e, In e window /\ snd e = msg /\ fst e <> receiver.
Proof.
  rewrite existsb_exists. unfold MU.duplicate.
  split; intros (e & Hin & H); exists e; split; auto.
  - apply andb_true_iff in H as [H1 H2]. apply String.eqb_eq in H1.
    apply negb_true_iff, source_eqb_neq in H2. auto.
  - destruct H as [H1 H2]. apply andb_true_iff. split.
    + now apply String.eqb_eq.
    + now apply negb_true_iff, source_eqb_neq.
Qed.

Lemma app_longer {A} (l t : list A) : t <> [] -> l ++ t <> l.
Proof.
  intros Ht E. apply (f_equal (@length A)) in E. rewrite length_app in E.
  destruct t; [congruence | simpl in E; lia].
Qed.

(** C4, as the code has it.  With an external controller attached, the
    message is suppressed (the window stays as trimmed, nothing reaches the
    controller) exactly when the trimmed window holds the same message from
    another member; with no external controller attached it is dropped
    whatever the window holds. *)
Theorem Multireceiver_message_suppression (w : MU.World) (rec : nat) (msg : Msg) :
  let window := MU.trim (MU.self w) in
  let w' := MU._message w (Some rec) msg in
  let matched := exists e, In e window /\ snd e = msg /\ fst e <> Some rec in
  (forall ext, MU.controller (MU.self w) = Some ext ->
     (matched <-> MU.outgoing (MU.self w') = window) /\
     (matched <->
      Player._message_queue (MU.players w' ext) =
      Player._message_queue (MU.players w ext))) /\
  (MU.controller (MU.self w) = None ->
     MU.outgoing (MU.self w') = window /\ MU.players w' = MU.players w).
Proof.
  intros window w' matched.
  destruct (message_cases w (Some rec) msg) as (_ & _ & _ & _ & H).
  fold window in H. fold w' in H.
  split.
  - intros ext C.
    destruct H as [([D | N] & Ho & Hp) | (D & ext' & C' & Ho & Hq & _)].
    + apply duplicate_exists in D. rewrite Hp. split; split; auto.
    + congruence.
    + assert (ext' = ext) by congruence. subst ext'.
      assert (~ matched).
      { intros M. apply duplicate_exists in M. fold window in M. congruence. }
      split; split; try contradiction; intros E; exfalso.
      * rewrite Ho in E. revert E. apply app_longer. discriminate.
      * rewrite Hq in E. revert E. apply app_longer.
        destruct (MU.needs_header window (Some rec)); discriminate.
  - intros C.
    destruct H as [(_ & Ho & Hp) | (_ & ext' & C' & _)]; [auto | congruence].
Qed.

Lemma Multireceiver_message_suppression_witness :
  let names := fun r : nat => MU.mkReceiver None (if Nat.eqb r 1 then "A" else "B")%string in
  let w0 := MU.start [1; 2] (fun _ => Player.fresh) names in
  let w := MU._message (MU.attach w0 0) (Some 1) "Hi"%string in
  MU.controller (MU.self w) = Some 0 /\
  MU.outgoing (MU.self (MU._message w (Some 2) "Hi"%string)) = [(Some 1, "Hi"%string)] /\
  Player._message_queue (MU.players (MU._message w (Some 2) "Hi"%string) 0) =
    ["[A]"; "Hi"]%string.
Proof.
  intros names w0 w.
  assert (C : MU.controller (MU.self w) = Some 0) by reflexivity.
  assert (M : exists e,
             In e (MU.trim (MU.self w)) /\ snd e = "Hi"%string /\ fst e <> Some 2).
  { exists (Some 1, "Hi"%string). simpl. repeat split; [auto | discriminate]. }
  destruct (Multireceiver_message_suppression w 2 "Hi"%string) as [H _].
  destruct (H 0 C) as [[Ho _] [Hq _]].
  split; [exact C |]. split.
  - rewrite (Ho M). reflexivity.
  - rewrite (Hq M). reflexivity.
Defined.

(** C4, as stated, fails: with no external controller attached a message
    is neither forwarded nor appended although the window holds no matching
    entry. *)
Lemma Multireceiver_message_dropped_without_controller :
  let w := MU.start [1; 2] (fun _ => Player.fresh) (fun _ => MU.mkReceiver None "A"%string) in
  let w' := MU._message w (Some 1) "Hi"%string in
  MU.outgoing (MU.self w') = MU.trim (MU.self w) /\
  MU.players w' = MU.players w /\
  ~ (exists e, In e (MU.trim (MU.self w)) /\ snd e = "Hi"%string /\ fst e <> Some 1).
Proof.
  simpl. repeat split. intros (e & [] & _).
Qed.

Lemma needs_header_spec (window : list (MU.source * Msg)) (receiver : MU.source) :
  MU.needs_header window receiver = true <->
  window = [] \/ exists pre e, window = pre ++ [e] /\ fst e <> receiver.
Proof.
  destruct window as [| x l]; [simpl; split; auto |].
  destruct (exists_last (l := x :: l)) as (pre & e & E); [discriminate |].
  rewrite E. unfold MU.needs_header.
  destruct (pre ++ [e]) eqn:P; [destruct pre; discriminate |]. rewrite <- P.
  rewrite last_last, negb_true_iff, source_eqb_neq. split.
  - intros H. right. exists pre, e. auto.
  - intros [H | (pre' & e' & H & Hne)]; [destruct pre; discriminate |].
    apply app_inj_tail in H as [_ ->]. exact Hne.
Qed.

Lemma capacity_positive (n : nat) : 0 < n -> 0 < MU.capacity n.
Proof.
  intros H. unfold MU.capacity. apply Nat.div_str_pos. lia.
Qed.

Lemma capacity_mono (n m : nat) : n <= m -> MU.capacity n <= MU.capacity m.
Proof. intros H. unfold MU.capacity. apply Nat.Div0.div_le_mono. lia. Qed.

(** After a forwarded message the next trim keeps its entry last, as long
    as the capacity is positive. *)
Lemma no_header_after_forward (m : MU.t) (window : list (MU.source * Msg))
    (rec : MU.source) (msg : Msg) :
  0 < MU.outgoing_size m ->
  MU.outgoing m = window ++ [(rec, msg)] ->
  MU.needs_header (MU.trim m) rec = false.
Proof.
  intros Hs Ho.
  assert (T : exists pre, MU.trim m = pre ++ [(rec, msg)]).
  { unfold MU.trim. rewrite Ho.
    destruct (Nat.ltb_spec (MU.outgoing_size m) (length (window ++ [(rec, msg)]))) as [H | H].
    - destruct window as [| x l]; simpl in *; [lia |]. now exists l.
    - now exists window. }
  destruct T as (pre & ->). unfold MU.needs_header.
  destruct (pre ++ [(rec, msg)]) eqn:P; [destruct pre; discriminate |]. rewrite <- P.
  rewrite last_last. simpl. now rewrite (proj2 (source_eqb_eq rec rec) eq_refl).
Qed.

(** C5. A forwarded message sends the header ["[<m>]"] exactly when the
    trimmed window is empty or its last entry comes from another member,
    then the body, and appends [(m, message)] to the window; a second
    message forwarded for the same member right after sends its body
    only. *)
Theorem Multireceiver_message_forwarding (w : MU.World) (ext rec : nat) (msg : Msg) :
  MU.controller (MU.self w) = Some ext ->
  existsb (MU.duplicate (Some rec) msg) (MU.trim (MU.self w)) = false ->
  let window := MU.trim (MU.self w) in
  let w' := MU._message w (Some rec) msg in
  (MU.needs_header window (Some rec) = true <->
     window = [] \/ exists pre e, window = pre ++ [e] /\ fst e <> Some rec) /\
  Player._message_queue (MU.players w' ext) =
    Player._message_queue (MU.players w ext)
    ++ (if MU.needs_header window (Some rec) then [MU.header w (Some rec)] else [])
    ++ [msg] /\
  MU.outgoing (MU.self w') = window ++ [(Some rec, msg)] /\
  (In rec (MU.iter (MU.self w)) ->
   MU.outgoing_size (MU.self w) = MU.capacity (length (MU._rec_dict (MU.self w))) ->
   forall msg2,
     existsb (MU.duplicate (Some rec) msg2) (MU.trim (MU.self w')) = false ->
     Player._message_queue (MU.players (MU._message w' (Some rec) msg2) ext) =
     Player._message_queue (MU.players w' ext) ++ [msg2]).
Proof.
  intros C D window w'.
  destruct (message_cases w (Some rec) msg) as (Hc & Hd & Hs & _ & H).
  fold window in H. fold w' in H, Hc, Hd, Hs.
  destruct H as [([D' | N] & _) | (_ & ext' & C' & Ho & Hq & _)];
    [unfold window in D'; congruence | congruence |].
  assert (ext' = ext) by congruence. subst ext'.
  split; [apply needs_header_spec |]. split; [exact Hq |]. split; [exact Ho |].
  intros Hin Hcap msg2 D2.
  assert (Hpos : 0 < MU.outgoing_size (MU.self w')).
  { rewrite Hs, Hcap. apply capacity_positive. unfold MU.iter in Hin.
    destruct (MU._rec_dict (MU.self w)); [contradiction | simpl; lia]. }
  pose proof (no_header_after_forward _ _ _ _ Hpos Ho) as NH.
  destruct (message_cases w' (Some rec) msg2) as (_ & _ & _ & _ & H2).
  destruct H2 as [([D' | N] & _) | (_ & ext' & C2 & _ & Hq2 & _)];
    [congruence | congruence |].
  assert (ext' = ext) by congruence. subst ext'.
  rewrite Hq2, NH. reflexivity.
Qed.

Lemma Multireceiver_message_forwarding_witness :
  let names := fun r : nat => MU.mkReceiver None (if Nat.eqb r 1 then "A" else "B")%string in
  let w := MU.attach (MU.start [1; 2] (fun _ => Player.fresh) names) 0 in
  let w' := MU._message w (Some 1) "Hi"%string in
  MU.controller (MU.self w) = Some 0 /\
  existsb (MU.duplicate (Some 1) "Hi"%string) (MU.trim (MU.self w)) = false /\
  Player._message_queue (MU.players w' 0) = ["[A]"; "Hi"]%string /\
  Player._message_queue (MU.players (MU._message w' (Some 1) "There"%string) 0) =
    ["[A]"; "Hi"; "There"]%string.
Proof.
  intros names w w'.
  assert (C : MU.controller (MU.self w) = Some 0) by reflexivity.
  assert (D : existsb (MU.duplicate (Some 1) "Hi"%string) (MU.trim (MU.self w)) = false)
    by reflexivity.
  destruct (Multireceiver_message_forwarding w 0 1 "Hi"%string C D) as (_ & Hq & _ & Hn).
  split; [exact C |]. split; [exact D |]. subst w'. split.
  - rewrite Hq. reflexivity.
  - rewrite Hn; [| simpl; auto | reflexivity | reflexivity].
    rewrite Hq. reflexivity.
Defined.

(** *** Capacity and window length along any history *)


(** One routed message: the window grows by at most one entry, and only
    when it was not longer than the capacity. *)
Lemma message_window_length (w : MU.World) (rec : MU.source) (msg : Msg) :
  let w' := MU._message w rec msg in
  length (MU.outgoing (MU.self w')) <=
    Nat.max (length (MU.outgoing (MU.self w))) (MU.outgoing_size (MU.self w) + 1) /\
  (length (MU.outgoing (MU.self w)) < length (MU.outgoing (MU.self w')) ->
   length (MU.outgoing (MU.self w)) <= MU.outgoing_size (MU.self w)).
Proof.
  intros w'. destruct (message_cases w rec msg) as (_ & _ & _ & _ & H).
  fold w' in H. destruct (trim_length (MU.self w)) as (T1 & T2 & T3).
  destruct H as [(_ & Ho & _) | (_ & ext & _ & Ho & _)]; rewrite Ho.
  - split; lia.
  - rewrite length_app. simpl.
    destruct (Nat.lt_ge_cases (MU.outgoing_size (MU.self w)) (length (MU.outgoing (MU.self w))))
      as [L | L].
    + specialize (T2 L). split; lia.
    + rewrite (T3 L). split; lia.
Qed.

Lemma message_bounded (n : nat) (w : MU.World) (rec : MU.source) (msg : Msg) :
  bounded n (MU.self w) -> bounded n (MU.self (MU._message w rec msg)).
Proof.
  intros (H1 & H2 & H3).
  destruct (message_cases w rec msg) as (_ & Hd & Hs & _ & _).
  destruct (message_window_length w rec msg) as [L _].
  unfold bounded. rewrite Hd, Hs. repeat split; auto.
  pose proof (capacity_mono _ _ H2). lia.
Qed.

Lemma dict_del_length (k : nat) (d : MU.dict) : length (MU.dict_del k d) <= length d.
Proof. apply filter_length_le. Qed.

Lemma check_loop_bounded (n : nat) (snapshot : MU.dict) :
  forall w w1, MU.check_loop snapshot w = Ok w1 ->
    bounded n (MU.self w) -> bounded n (MU.self w1).
Proof.
  induction snapshot as [| [rec d] rest IH]; intros w w1 E B; simpl in E.
  - injection E as <-. exact B.
  - destruct (MU.taken_over w rec); [| now apply (IH w)].
    destruct (MU.controller (MU.self w)) as [ext |]; [| discriminate].
    apply (IH _ _ E). destruct B as (H1 & H2 & H3).
    unfold bounded. simpl. repeat split; auto.
    pose proof (dict_del_length rec (MU._rec_dict (MU.self w))). lia.
Qed.

Lemma add_to_all_length (cmd : Cmd) (d : MU.dict) : length (MU.add_to_all cmd d) = length d.
Proof. apply length_map. Qed.

(** The recursion of [fan_out] is the loop of the source: one round tests
    [has_cmd], calls [read_cmd], hands the command to every adapter, and
    goes on with what is left in the queue. *)
Lemma fan_out_round (ext : nat) (w : MU.World) :
  MU.fan_out (Player._command_queue (MU.players w ext)) ext w =
  if Player.has_cmd (MU.players w ext) then
    match Player.read_cmd (MU.players w ext) with
    | Ok (cmd, p) =>
        let w1 := MU.set_player w ext p in
        MU.fan_out (Player._command_queue (MU.players w1 ext)) ext
          (MU.set_dict w1 (MU.add_to_all cmd (MU._rec_dict (MU.self w1))))
    | _ => w
    end
  else w.
Proof.
  unfold Player.has_cmd, Player.read_cmd.
  destruct (Player._command_queue (MU.players w ext)) as [| cmd rest] eqn:E; simpl;
    [reflexivity |].
  now rewrite upd_same.
Qed.

Lemma fan_out_frame (pending : list Cmd) (ext : nat) :
  forall w,
    let w2 := MU.fan_out pending ext w in
    MU.members w2 = MU.members w /\
    MU.controller (MU.self w2) = MU.controller (MU.self w) /\
    MU.outgoing_size (MU.self w2) = MU.outgoing_size (MU.self w) /\
    MU.outgoing (MU.self w2) = MU.outgoing (MU.self w) /\
    MU._rec_dict (MU.self w2) =
      map (fun e => (fst e,
                     DummyController.mk (DummyController.receiver (snd e))
                       (DummyController._command_queue (snd e) ++ pending)))
          (MU._rec_dict (MU.self w)).
Proof.
  induction pending as [| cmd rest IH]; intros w; simpl.
  - repeat split. rewrite <- (map_id (MU._rec_dict (MU.self w))) at 1.
    apply map_ext. intros [k [r q]]. simpl. now rewrite app_nil_r.
  - destruct (IH (MU.set_dict
                    (MU.set_player w ext (Player.set_commands (MU.players w ext) rest))
                    (MU.add_to_all cmd (MU._rec_dict (MU.self w)))))
      as (Hm & Hc & Hs & Ho & Hd).
    simpl in *. repeat split; auto.
    rewrite Hd. unfold MU.add_to_all. rewrite map_map. apply map_ext.
    intros [k [r q]]. simpl. unfold Queue.put. now rewrite <- app_assoc.
Qed.


Lemma fan_out_bounded (n : nat) (pending : list Cmd) (ext : nat) (w : MU.World) :
  bounded n (MU.self w) -> bounded n (MU.self (MU.fan_out pending ext w)).
Proof.
  intros (H1 & H2 & H3).
  destruct (fan_out_frame pending ext w) as (_ & _ & Hs & Ho & Hd).
  unfold bounded. rewrite Hs, Ho, Hd, length_map. auto.
Qed.

Lemma fold_write_msg_bounded (n : nat) (dummy : DummyController.t) (msgs : list Msg) :
  forall w, bounded n (MU.self w) ->
    bounded n (MU.self (fold_left (fun w m => MU.write_msg w dummy m) msgs w)).
Proof.
  induction msgs as [| m msgs IH]; intros w B; simpl; [exact B |].
  apply IH. now apply message_bounded.
Qed.

Section History.
Variable member_update : nat -> list Cmd -> list Msg * list Cmd.

Lemma update_member_bounded (n : nat) (w w' : MU.World) (rec : nat) :
  MU.update_member member_update w rec = inl w' ->
  bounded n (MU.self w) -> bounded n (MU.self w').
Proof.
  unfold MU.update_member. intros E B.
  destruct (MU.rec_controller (MU.members w rec)) as [[id | k] |]; [| | discriminate].
  - destruct (member_update rec (Player._command_queue (MU.players w id))) as [msgs unread].
    injection E as <-. exact B.
  - destruct (MU.dict_get k (MU._rec_dict (MU.self w))) as [dummy |] eqn:G;
      [| injection E as <-; exact B].
    destruct (member_update rec (DummyController._command_queue dummy)) as [msgs unread].
    injection E as <-.
    apply fold_write_msg_bounded. destruct B as (H1 & H2 & H3).
    unfold bounded. simpl. rewrite (dict_set_length _ _ _ _ G). auto.
Qed.

Lemma update_members_bounded (n : nat) (l : list nat) :
  forall w, bounded n (MU.self w) ->
    bounded n (MU.self (fst (MU.update_members member_update l w))).
Proof.
  induction l as [| r l IH]; intros w B; simpl; [exact B |].
  destruct (MU.update_member member_update w r) as [w' | e] eqn:E; [| exact B].
  apply IH. exact (update_member_bounded n w w' r E B).
Qed.

(** When [update] returns, it returns the state [after_update] gives. *)
Lemma update_returns (w w' : MU.World) :
  MU.update member_update w = Ok w' -> MU.after_update member_update w = w'.
Proof.
  unfold MU.update, MU.after_update.
  destruct (MU._check_controllers w) as [w1 | e |]; try discriminate.
  destruct (MU.controller (MU.self w1)) as [ext |]; [| discriminate].
  destruct (MU.update_members member_update _ _) as [w3 [e |]]; [discriminate |].
  intros E. now injection E.
Qed.

Lemma after_update_bounded (n : nat) (w : MU.World) :
  bounded n (MU.self w) -> bounded n (MU.self (MU.after_update member_update w)).
Proof.
  unfold MU.after_update, MU._check_controllers. intros B.
  destruct (MU.check_loop (MU._rec_dict (MU.self w)) w) as [w1 | e |] eqn:C;
    try exact B.
  pose proof (check_loop_bounded n _ _ _ C B) as B1.
  destruct (MU.controller (MU.self w1)) as [ext |]; [| exact B1].
  apply update_members_bounded. now apply fan_out_bounded.
Qed.

Lemma update_bounded (n : nat) (w w' : MU.World) :
  MU.update member_update w = Ok w' -> bounded n (MU.self w) -> bounded n (MU.self w').
Proof. intros E B. rewrite <- (update_returns w w' E). now apply after_update_bounded. Qed.




End History.


(** *** Eviction *)

(** The dict that [__init__] builds holds every receiver once. *)
Lemma init_loop_nodup (receivers : list nat) :
  forall d, NoDup (map fst d) -> NoDup (map fst (MU.init_loop d receivers)).
Proof.
  induction receivers as [| r rest IH]; intros d N; simpl; [exact N |].
  apply IH. rewrite dict_set_keys.
  destruct (existsb (Nat.eqb r) (map fst d)) eqn:E; [exact N |].
  apply NoDup_app; [exact N | repeat constructor; auto |].
  intros x Hx [Hr | []]. subst x.
  assert (existsb (Nat.eqb r) (map fst d) = true); [| congruence].
  apply existsb_exists. exists r. split; [exact Hx | apply Nat.eqb_refl].
Qed.

Lemma fold_del_filter (ks : list nat) :
  forall d : MU.dict,
    fold_left (fun d k => MU.dict_del k d) ks d =
    filter (fun e => negb (existsb (Nat.eqb (fst e)) ks)) d.
Proof.
  induction ks as [| k ks IH]; intros d; simpl.
  - induction d as [| e d IHd]; simpl; [reflexivity | now rewrite <- IHd].
  - rewrite IH. unfold MU.dict_del. induction d as [| e d IHd]; simpl; [reflexivity |].
    destruct (Nat.eqb (fst e) k) eqn:E; simpl; [exact IHd |].
    destruct (existsb (Nat.eqb (fst e)) ks); simpl; [exact IHd | now rewrite IHd].
Qed.

Lemma survivors_filter (taken : nat -> bool) (d : MU.dict) :
  filter (fun e => negb (existsb (Nat.eqb (fst e)) (filter taken (map fst d)))) d =
  filter (fun e => negb (taken (fst e))) d.
Proof.
  apply filter_ext_in. intros e He. f_equal.
  destruct (taken (fst e)) eqn:T.
  - apply existsb_exists. exists (fst e). split; [| apply Nat.eqb_refl].
    apply filter_In. split; [now apply in_map | exact T].
  - destruct (existsb (Nat.eqb (fst e)) (filter taken (map fst d))) eqn:X; [| reflexivity].
    apply existsb_exists in X as (k & Hk & E). apply Nat.eqb_eq in E. subst k.
    apply filter_In in Hk as [_ Hk]. congruence.
Qed.

(** With an external controller attached, the loop of [_check_controllers]
    returns; it removes the taken-over members of its snapshot, writes one
    notice for each in snapshot order, recomputes the capacity at each
    removal, and leaves everything else alone. *)
Lemma check_loop_spec (ext : nat) (snapshot : MU.dict) :
  forall w, MU.controller (MU.self w) = Some ext ->
    let gone := filter (MU.taken_over w) (map fst snapshot) in
    exists w1,
      MU.check_loop snapshot w = Ok w1 /\
      MU.members w1 = MU.members w /\
      MU.controller (MU.self w1) = Some ext /\
      MU.outgoing (MU.self w1) = MU.outgoing (MU.self w) /\
      MU._rec_dict (MU.self w1) =
        fold_left (fun d k => MU.dict_del k d) gone (MU._rec_dict (MU.self w)) /\
      Player._message_queue (MU.players w1 ext) =
        Player._message_queue (MU.players w ext) ++ map (MU.lost_connection w) gone /\
      Player._command_queue (MU.players w1 ext) =
        Player._command_queue (MU.players w ext) /\
      (forall x, x <> ext -> MU.players w1 x = MU.players w x) /\
      (gone <> [] ->
       MU.outgoing_size (MU.self w1) = MU.capacity (length (MU._rec_dict (MU.self w1)))) /\
      (gone = [] -> w1 = w).
Proof.
  induction snapshot as [| [rec d] rest IH]; intros w C gone.
  - exists w. subst gone. simpl. rewrite app_nil_r. repeat split; auto. congruence.
  - subst gone. simpl. destruct (MU.taken_over w rec) eqn:T.
    + rewrite C.
      set (w' := MU.set_self _ _).
      destruct (IH w') as (w1 & E & Hm & Hc & Ho & Hd & Hq & Hk & Hp & Hs & Hn);
        [reflexivity |].
      change (MU.taken_over w') with (MU.taken_over w) in *.
      change (MU.lost_connection w') with (MU.lost_connection w) in *.
      exists w1. split; [exact E |]. split; [exact Hm |]. split; [exact Hc |].
      split; [exact Ho |]. split; [exact Hd |]. split.
      { rewrite Hq. subst w'. simpl. rewrite upd_same. simpl. unfold Queue.put.
        now rewrite <- app_assoc. }
      split. { rewrite Hk. subst w'. simpl. now rewrite upd_same. }
      split. { intros x Hx. rewrite (Hp x Hx). subst w'. simpl. now apply upd_other. }
      split; [| discriminate]. intros _.
      destruct (filter (MU.taken_over w) (map fst rest)) eqn:G.
      * rewrite (Hn eq_refl). reflexivity.
      * apply Hs. discriminate.
    + apply (IH w C).
Qed.

Lemma check_controllers_spec (ext : nat) (w : MU.World) :
  MU.controller (MU.self w) = Some ext ->
  let gone := filter (MU.taken_over w) (MU.iter (MU.self w)) in
  exists w1,
    MU._check_controllers w = Ok w1 /\
    MU.members w1 = MU.members w /\
    MU.controller (MU.self w1) = Some ext /\
    MU.outgoing (MU.self w1) = MU.outgoing (MU.self w) /\
    MU._rec_dict (MU.self w1) =
      filter (fun e => negb (MU.taken_over w (fst e))) (MU._rec_dict (MU.self w)) /\
    Player._message_queue (MU.players w1 ext) =
      Player._message_queue (MU.players w ext) ++ map (MU.lost_connection w) gone /\
    Player._command_queue (MU.players w1 ext) = Player._command_queue (MU.players w ext) /\
    (gone <> [] ->
     MU.outgoing_size (MU.self w1) = MU.capacity (length (MU._rec_dict (MU.self w1)))).
Proof.
  intros C gone.
  destruct (check_loop_spec ext (MU._rec_dict (MU.self w)) w C)
    as (w1 & E & Hm & Hc & Ho & Hd & Hq & Hk & _ & Hs & _).
  exists w1. repeat split; auto.
  rewrite Hd, fold_del_filter. apply survivors_filter.
Qed.


Section UpdateTick.
Variable member_update : nat -> list Cmd -> list Msg * list Cmd.





End UpdateTick.


(** C2, at a group of members A, B and C whose member C has been taken
    over by another controller: [update] evicts C and recomputes the
    capacity, but the notice it sends reads "Lost connection wtih C", not
    "Lost connection with C". *)
Theorem Multireceiver_eviction_notice_text :
  let names := fun r : nat =>
    MU.mkReceiver None (match r with 1 => "A" | 2 => "B" | _ => "C" end)%string in
  let idle := fun (_ : nat) (q : list Cmd) => (@nil Msg, q) in
  let w := MU.run idle (MU.start [1; 2; 3] (fun _ => Player.fresh) names)
             [MU.Attach 0; MU.TakeOver 3 9] in
  exists w',
    MU.update idle w = Ok w' /\
    Player._message_queue (MU.players w' 0) = ["Lost connection wtih C"]%string /\
    Player._message_queue (MU.players w' 0) <> ["Lost connection with C"]%string /\
    MU.iter (MU.self w') = [1; 2] /\
    MU.outgoing_size (MU.self w') = MU.capacity 2.
Proof.
  eexists. split; [vm_compute; reflexivity |].
  repeat split; try reflexivity. discriminate.
Qed.

(** C9. [DummyController.has_msg] returns Python's [None] in every state:
    with or without an external controller, and whatever that controller's
    queues hold. *)
Theorem DummyController_has_msg_none (w : MU.World) (dummy : DummyController.t) :
  MU.has_msg w dummy = Ok None.
Proof.
  unfold MU.has_msg, MU.controller_has_msg.
  destruct (MU.controller (MU.self w)); reflexivity.
Qed.

(* ================================================================== *)
(** * Further properties of the code *)

(** ** MultiController: messages *)

Lemma write_msg_leaf_queues (msg : Msg) :
  forall c h id,
    Player._message_queue (MC.write_msg h c msg id) =
      Player._message_queue (h id)
      ++ repeat msg (count_occ Nat.eq_dec (MC.leaf_ids c) id) /\
    Player._command_queue (MC.write_msg h c msg id) = Player._command_queue (h id) /\
    Player.receiver (MC.write_msg h c msg id) = Player.receiver (h id).
Proof.
  induction c as [j | l IH] using Controller_nested_ind; intros h id.
  - simpl. unfold upd. destruct (Nat.eq_dec j id) as [-> | Hj].
    + rewrite Nat.eqb_refl. simpl. auto.
    + apply not_eq_sym, Nat.eqb_neq in Hj. rewrite Hj, app_nil_r. auto.
  - simpl. revert h. induction IH as [| c l Hc _ IHl]; intros h; simpl.
    + rewrite app_nil_r. auto.
    + destruct (IHl (MC.write_msg h c msg)) as (E1 & E2 & E3).
      destruct (Hc h id) as (F1 & F2 & F3).
      rewrite E1, E2, E3, F1, F2, F3, count_occ_app, repeat_app, app_assoc. auto.
Qed.

Lemma existsb_pointwise {A} (f g : A -> bool) (l : list A) :
  (forall x, f x = g x) -> existsb f l = existsb g l.
Proof. intros H. induction l as [| x l IH]; simpl; [reflexivity |]. now rewrite H, IH. Qed.

Lemma has_msg_leaves (h : Players) :
  forall c, MC.has_msg h c = existsb (fun id => Player.has_msg (h id)) (MC.leaf_ids c).
Proof.
  induction c as [j | l IH] using Controller_nested_ind; simpl.
  - now rewrite orb_false_r.
  - induction IH as [| c l Hc _ IHl]; simpl; [reflexivity |].
    now rewrite existsb_app, Hc, IHl.
Qed.

Lemma has_cmd_leaves (h : Players) :
  forall c, MC.has_cmd h c = existsb (fun id => Player.has_cmd (h id)) (MC.leaf_ids c).
Proof.
  induction c as [j | l IH] using Controller_nested_ind; simpl.
  - now rewrite orb_false_r.
  - induction IH as [| c l Hc _ IHl]; simpl; [reflexivity |].
    now rewrite existsb_app, Hc, IHl.
Qed.

(** X1. [MultiController.write_msg] is a broadcast: every simple controller
    gets the message appended to its message queue once for each time it
    occurs below the composite (so not at all when it does not occur), and
    no command queue and no [receiver] field changes. *)
Theorem MultiController_write_msg_broadcast
  (h : Players) (c : MC.Controller) (msg : Msg) (id : nat) :
  Player._message_queue (MC.write_msg h c msg id) =
    Player._message_queue (h id)
    ++ repeat msg (count_occ Nat.eq_dec (MC.leaf_ids c) id) /\
  Player._command_queue (MC.write_msg h c msg id) = Player._command_queue (h id) /\
  Player.receiver (MC.write_msg h c msg id) = Player.receiver (h id).
Proof. apply write_msg_leaf_queues. Qed.

(** X2. After [write_msg], [has_msg] of the same controller is true exactly
    when there is a simple controller below it: a composite without one
    loses the message.  [has_cmd] of any controller is what it was. *)
Theorem MultiController_has_msg_after_write
  (h : Players) (c : MC.Controller) (msg : Msg) :
  MC.has_msg (MC.write_msg h c msg) c = negb (Queue.empty (MC.leaf_ids c)) /\
  forall c', MC.has_cmd (MC.write_msg h c msg) c' = MC.has_cmd h c'.
Proof.
  split.
  - rewrite has_msg_leaves.
    destruct (MC.leaf_ids c) as [| j ids] eqn:E; [reflexivity |].
    simpl. unfold Player.has_msg at 1.
    destruct (write_msg_leaf_queues msg c h j) as (Q & _). rewrite Q, E. simpl.
    destruct (Nat.eq_dec j j) as [_ | N]; [| contradiction]. simpl.
    destruct (Player._message_queue (h j)); reflexivity.
  - intros c'. rewrite !has_cmd_leaves. apply existsb_pointwise. intros id.
    unfold Player.has_cmd.
    destruct (write_msg_leaf_queues msg c h id) as (_ & Q & _). now rewrite Q.
Qed.

(** ** Controller.assume_control and Monoreceiver *)

Lemma attach_fields (h : MR.Heap) (r c : nat) :
  MR.controller h r <> Some c ->
  (forall x, MR.controller (MR.attach h r c) x =
             if Nat.eqb x r then Some c else MR.controller h x) /\
  (forall y, MR.receiver (MR.attach h r c) y =
             if Nat.eqb y c then Some r else MR.receiver (MR.detach h r) y).
Proof.
  intros H. unfold MR.attach.
  destruct (MR.is_current c (MR.controller h r)) eqn:E.
  - apply is_current_true in E. contradiction.
  - split; intros x; cbn [MR.controller MR.receiver]; unfold upd.
    + destruct (Nat.eqb_spec x r) as [-> | Hx]; [reflexivity |].
      rewrite detach_controller. apply Nat.eqb_neq in Hx. now rewrite Hx.
    + reflexivity.
Qed.

Lemma assume_control_fields (h : MR.Heap) (c r : nat) :
  (forall x, MR.controller (CT.assume_control h c r) x =
             if Nat.eqb x r then Some c else MR.controller h x) /\
  (forall y, MR.receiver (CT.assume_control h c r) y =
             if Nat.eqb y c then Some r else MR.receiver (MR.detach h r) y).
Proof.
  unfold CT.assume_control.
  assert (N : MR.controller (MR.detach h r) r = None).
  { rewrite detach_controller. now rewrite Nat.eqb_refl. }
  destruct (attach_fields (MR.detach h r) r c) as [A B]; [congruence |].
  split.
  - intros x. rewrite A, detach_controller. now destruct (Nat.eqb x r).
  - intros y. rewrite B. destruct (Nat.eqb y c); [reflexivity |].
    now rewrite (detach_receiver (MR.detach h r)), N.
Qed.

(** X3. After [c.assume_control(r)] on a [Monoreceiver], whatever the
    state before, [r.controller] is [c] and [c.receiver] is [r]; a former
    controller of [r] other than [c] has [receiver] [None]; and no other
    receiver's [controller] field changes, so a receiver that [c] drove
    before still points at [c]. *)
Theorem Controller_assume_control_takes_over (h : MR.Heap) (c r : nat) :
  let h' := CT.assume_control h c r in
  MR.controller h' r = Some c /\
  MR.receiver h' c = Some r /\
  (forall c0, MR.controller h r = Some c0 -> c0 <> c -> MR.receiver h' c0 = None) /\
  (forall r0, r0 <> r -> MR.controller h' r0 = MR.controller h r0).
Proof.
  intros h'. subst h'. destruct (assume_control_fields h c r) as [A B].
  repeat split.
  - rewrite A. now rewrite Nat.eqb_refl.
  - rewrite B. now rewrite Nat.eqb_refl.
  - intros c0 H0 Hne. rewrite B. apply Nat.eqb_neq in Hne. rewrite Hne.
    rewrite detach_receiver, H0. now rewrite Nat.eqb_refl.
  - intros r0 Hr. rewrite A. apply Nat.eqb_neq in Hr. now rewrite Hr.
Qed.

(** X4. [Monoreceiver.detach] on a receiver without controller changes no
    field, and detaching twice is the same as detaching once. *)
Theorem Monoreceiver_detach_idempotent (h : MR.Heap) (r : nat) :
  (MR.controller h r = None ->
   forall x, MR.controller (MR.detach h r) x = MR.controller h x /\
             MR.receiver (MR.detach h r) x = MR.receiver h x) /\
  (forall x, MR.controller (MR.detach (MR.detach h r) r) x = MR.controller (MR.detach h r) x /\
             MR.receiver (MR.detach (MR.detach h r) r) x = MR.receiver (MR.detach h r) x).
Proof.
  assert (G : forall g, MR.controller g r = None ->
            forall x, MR.controller (MR.detach g r) x = MR.controller g x /\
                      MR.receiver (MR.detach g r) x = MR.receiver g x).
  { intros g N x. rewrite detach_controller, detach_receiver, N. split; [| reflexivity].
    destruct (Nat.eqb_spec x r) as [-> | _]; congruence. }
  split; [apply G |]. apply G. rewrite detach_controller. now rewrite Nat.eqb_refl.
Qed.

Lemma Monoreceiver_detach_idempotent_witness :
  let h := MR.run MR.fresh [MR.Attach 1 0; MR.Detach 1] in
  MR.controller h 1 = None /\
  forall x, MR.controller (MR.detach h 1) x = MR.controller h x /\
            MR.receiver (MR.detach h 1) x = MR.receiver h x.
Proof.
  intros h. assert (N : MR.controller h 1 = None) by reflexivity.
  split; [exact N |]. exact (proj1 (Monoreceiver_detach_idempotent h 1) N).
Defined.

Lemma fold_set_receiver (r : nat) (members : list nat) :
  forall h,
    let h' := fold_left (fun h ctrl => CT.set_receiver h ctrl (Some r)) members h in
    MR.controller h' = MR.controller h /\
    forall y, MR.receiver h' y =
              if existsb (Nat.eqb y) members then Some r else MR.receiver h y.
Proof.
  induction members as [| m members IH]; intros h; simpl; [auto |].
  destruct (IH (CT.set_receiver h m (Some r))) as [A B].
  split; [exact A |]. intros y. rewrite B. simpl. unfold upd.
  destruct (Nat.eqb y m); simpl; [| reflexivity].
  now destruct (existsb (Nat.eqb y) members).
Qed.

(** X5. After [MultiController.assume_control(r)], [r.controller] is the
    composite, the composite and every member of its [_ctrl_list] have
    [receiver] [r], and no other receiver's [controller] changes: the
    members point at [r] although [r] does not point at them. *)
Theorem MultiController_assume_control_members
  (h : MR.Heap) (self : nat) (members : list nat) (r : nat) :
  let h' := CT.multi_assume_control h self members r in
  MR.controller h' r = Some self /\
  MR.receiver h' self = Some r /\
  (forall m, In m members -> MR.receiver h' m = Some r) /\
  (forall r0, r0 <> r -> MR.controller h' r0 = MR.controller h r0).
Proof.
  intros h'. subst h'. unfold CT.multi_assume_control.
  destruct (fold_set_receiver r members (CT.assume_control h self r)) as [A B].
  destruct (assume_control_fields h self r) as [C D].
  rewrite A. repeat split.
  - rewrite C. now rewrite Nat.eqb_refl.
  - rewrite B. destruct (existsb (Nat.eqb self) members); [reflexivity |].
    rewrite D. now rewrite Nat.eqb_refl.
  - intros m Hm. rewrite B.
    assert (E : existsb (Nat.eqb m) members = true).
    { apply existsb_exists. exists m. split; [exact Hm | apply Nat.eqb_refl]. }
    now rewrite E.
  - intros r0 Hr. rewrite C. apply Nat.eqb_neq in Hr. now rewrite Hr.
Qed.

(** ** Multireceiver: construction, attach, detach *)

Lemma init_loop_entries (receivers : list nat) :
  forall d r,
    MU.dict_get r (MU.init_loop d receivers) =
    if existsb (Nat.eqb r) receivers then Some (DummyController.mk (Some r) [])
    else MU.dict_get r d.
Proof.
  induction receivers as [| x rest IH]; intros d r; simpl; [reflexivity |].
  rewrite IH. destruct (existsb (Nat.eqb r) rest); [now rewrite orb_true_r |].
  rewrite orb_false_r. destruct (Nat.eqb_spec r x) as [-> | Hr].
  - apply dict_get_set_same.
  - now apply dict_get_set_other.
Qed.

(** X6. A group built from [receivers] has each of them as a member once,
    however often it was passed, and no other member; every member's
    adapter is made for that member and has no command queued; the
    capacity is [floor(1.5 * n)] for the [n] distinct receivers; and the
    group starts with no controller and an empty window. *)
Theorem Multireceiver_init_members (receivers : list nat) :
  let m := MU.init receivers in
  NoDup (MU.iter m) /\
  (forall r, In r (MU.iter m) <-> In r receivers) /\
  (forall r, In r receivers ->
             MU.dict_get r (MU._rec_dict m) = Some (DummyController.mk (Some r) [])) /\
  MU.outgoing_size m = MU.capacity (length (MU.iter m)) /\
  length (MU.iter m) <= length receivers /\
  MU.controller m = None /\
  MU.outgoing m = [].
Proof.
  intros m. subst m. unfold MU.init, MU.iter. simpl.
  assert (G : forall r, MU.dict_get r (MU.init_loop [] receivers) =
                        if existsb (Nat.eqb r) receivers
                        then Some (DummyController.mk (Some r) []) else None).
  { intros r. apply init_loop_entries. }
  assert (M : forall r, In r (map fst (MU.init_loop [] receivers)) <-> In r receivers).
  { intros r. rewrite dict_get_in_keys, G. split.
    - intros [v H]. destruct (existsb (Nat.eqb r) receivers) eqn:E; [| discriminate].
      apply existsb_exists in E as (x & Hx & E). apply Nat.eqb_eq in E. now subst.
    - intros H. assert (E : existsb (Nat.eqb r) receivers = true).
      { apply existsb_exists. exists r. split; [exact H | apply Nat.eqb_refl]. }
      rewrite E. eauto. }
  assert (N : NoDup (map fst (MU.init_loop [] receivers))).
  { apply init_loop_nodup. constructor. }
  repeat split; auto; try apply M.
  - intros r H. rewrite G.
    assert (E : existsb (Nat.eqb r) receivers = true).
    { apply existsb_exists. exists r. split; [exact H | apply Nat.eqb_refl]. }
    now rewrite E.
  - now rewrite length_map.
  - apply NoDup_incl_length; [exact N |]. intros r. apply M.
Qed.

Lemma Multireceiver_init_members_witness :
  MU.iter (MU.init [4; 7; 4; 4]) = [4; 7] /\
  MU.dict_get 4 (MU._rec_dict (MU.init [4; 7; 4; 4])) =
    Some (DummyController.mk (Some 4) []) /\
  MU.outgoing_size (MU.init [4; 7; 4; 4]) = 3.
Proof.
  destruct (Multireceiver_init_members [4; 7; 4; 4]) as (_ & _ & G & _).
  split; [reflexivity |]. split; [| reflexivity].
  apply G. simpl. auto.
Defined.

Lemma detach_members (w : MU.World) (r : nat) :
  MU.members (MU.detach w) r =
  if existsb (Nat.eqb r) (MU.iter (MU.self w))
  then MU.mkReceiver None (MU.rec_str (MU.members w r))
  else MU.members w r.
Proof.
  unfold MU.detach. rewrite fold_member_detach_members.
  destruct (MU.controller (MU.self w)); reflexivity.
Qed.

Lemma super_attach_frame (w : MU.World) (c r : nat) :
  MU.rec_str (MU.members (MU.super_attach w c) r) = MU.rec_str (MU.members w r) /\
  (~ In r (MU.iter (MU.self w)) -> MU.members (MU.super_attach w c) r = MU.members w r).
Proof.
  unfold MU.super_attach.
  destruct (MR.is_current c (MU.controller (MU.self w))); [auto |].
  cbn [MU.members MU.set_player MU.set_controller MU.set_self].
  rewrite detach_members.
  destruct (existsb (Nat.eqb r) (MU.iter (MU.self w))) eqn:E; split; auto.
  intros H. apply existsb_eqb_in in E. contradiction.
Qed.

(** *** The adapters' [receiver] *)

Lemma set_receiver_dict_get (w : MU.World) (c : MU.ctrl_ref) (r : option nat) (j : nat) :
  MU.dict_get j (MU._rec_dict (MU.self (MU.set_receiver w c r))) =
  match c with
  | MU.Adapter k =>
      if Nat.eqb j k
      then option_map (fun d => DummyController.mk r (DummyController._command_queue d))
             (MU.dict_get k (MU._rec_dict (MU.self w)))
      else MU.dict_get j (MU._rec_dict (MU.self w))
  | MU.External _ => MU.dict_get j (MU._rec_dict (MU.self w))
  end.
Proof.
  destruct c as [id | k]; [reflexivity |]. simpl.
  destruct (MU.dict_get k (MU._rec_dict (MU.self w))) as [d |] eqn:G; simpl.
  - destruct (Nat.eqb_spec j k) as [E | H];
      [rewrite E; apply dict_get_set_same | now apply dict_get_set_other].
  - destruct (Nat.eqb_spec j k) as [E | H]; [rewrite E; exact G | reflexivity].
Qed.

Lemma set_receiver_adapter_players (w : MU.World) (k : nat) (r : option nat) :
  MU.players (MU.set_receiver w (MU.Adapter k) r) = MU.players w.
Proof. simpl. now destruct (MU.dict_get k (MU._rec_dict (MU.self w))). Qed.

(** A member without controller detaches without touching anything else. *)
Lemma member_detach_idle (w : MU.World) (x : nat) :
  MU.rec_controller (MU.members w x) = None ->
  MU.self (MU.member_detach w x) = MU.self w /\
  MU.players (MU.member_detach w x) = MU.players w /\
  MU.rec_controller (MU.members (MU.member_detach w x) x) = None.
Proof.
  intros H. unfold MU.member_detach. rewrite H. simpl. now rewrite upd_same.
Qed.

Lemma member_attach_fresh (w : MU.World) (x k : nat) :
  MU.rec_controller (MU.members w x) = None ->
  let w' := MU.member_attach w x (MU.Adapter k) in
  MU.players w' = MU.players w /\
  forall j, MU.dict_get j (MU._rec_dict (MU.self w')) =
    if Nat.eqb j k
    then option_map (fun d => DummyController.mk (Some x) (DummyController._command_queue d))
           (MU.dict_get k (MU._rec_dict (MU.self w)))
    else MU.dict_get j (MU._rec_dict (MU.self w)).
Proof.
  intros H w'. subst w'. unfold MU.member_attach, MU.is_member_controller. rewrite H.
  destruct (member_detach_idle w x H) as (S & P & _).
  set (w2 := MU.set_member_controller (MU.member_detach w x) x (Some (MU.Adapter k))).
  assert (S2 : MU.self w2 = MU.self w) by exact S.
  assert (P2 : MU.players w2 = MU.players w) by exact P.
  split.
  - now rewrite set_receiver_adapter_players.
  - intros j. rewrite set_receiver_dict_get, S2. reflexivity.
Qed.

(** [assume_control] on a member that has not been taken over touches no
    player, links the member's adapter to it, and no other adapter. *)
Lemma assume_control_clean (w : MU.World) (x : nat) :
  MU.taken_over w x = false ->
  let w' := MU.assume_control w x in
  MU.players w' = MU.players w /\
  (forall d, MU.dict_get x (MU._rec_dict (MU.self w')) = Some d ->
             DummyController.receiver d = Some x) /\
  (forall j, j <> x ->
     MU.dict_get j (MU._rec_dict (MU.self w')) = MU.dict_get j (MU._rec_dict (MU.self w))).
Proof.
  intros T w'. subst w'. unfold MU.assume_control.
  assert (N : MU.rec_controller (MU.members (MU.member_detach w x) x) = None).
  { rewrite member_detach_members, Nat.eqb_refl. reflexivity. }
  destruct (member_attach_fresh (MU.member_detach w x) x x N) as [P G].
  assert (D : MU.players (MU.member_detach w x) = MU.players w /\
              forall j, j <> x ->
                MU.dict_get j (MU._rec_dict (MU.self (MU.member_detach w x))) =
                MU.dict_get j (MU._rec_dict (MU.self w))).
  { unfold MU.taken_over in T. unfold MU.member_detach.
    destruct (MU.rec_controller (MU.members w x)) as [c |]; [| split; reflexivity].
    apply negb_false_iff, ctrl_ref_eqb_eq in T. subst c.
    split.
    - change (MU.players (MU.set_receiver w (MU.Adapter x) None) = MU.players w).
      apply set_receiver_adapter_players.
    - intros j Hj.
      change (MU.dict_get j (MU._rec_dict (MU.self (MU.set_receiver w (MU.Adapter x) None))) =
              MU.dict_get j (MU._rec_dict (MU.self w))).
      rewrite set_receiver_dict_get. apply Nat.eqb_neq in Hj. now rewrite Hj. }
  destruct D as [DP DG]. split; [congruence |]. split.
  - intros d. rewrite G, Nat.eqb_refl.
    destruct (MU.dict_get x (MU._rec_dict (MU.self (MU.member_detach w x)))); simpl;
      [| discriminate].
    intros E. injection E as <-. reflexivity.
  - intros j Hj. rewrite G. rewrite (DG j Hj). apply Nat.eqb_neq in Hj. now rewrite Hj.
Qed.

Lemma taken_over_assume_control (w : MU.World) (x y : nat) :
  MU.taken_over w y = false -> MU.taken_over (MU.assume_control w x) y = false.
Proof.
  unfold MU.taken_over. destruct (assume_control_members w x y) as [A _]. rewrite A.
  destruct (Nat.eqb_spec y x) as [E | _]; [| auto].
  intros _. rewrite E. simpl. now rewrite Nat.eqb_refl.
Qed.

Lemma fold_assume_control_clean (l : list nat) :
  forall w,
    (forall x, In x l -> MU.taken_over w x = false) ->
    let w' := fold_left MU.assume_control l w in
    MU.players w' = MU.players w /\
    forall r,
      In r l \/
      (forall d, MU.dict_get r (MU._rec_dict (MU.self w)) = Some d ->
                 DummyController.receiver d = Some r) ->
      forall d, MU.dict_get r (MU._rec_dict (MU.self w')) = Some d ->
                DummyController.receiver d = Some r.
Proof.
  induction l as [| x l IH]; intros w T; simpl.
  - split; [reflexivity |]. intros r [[] | H]. exact H.
  - destruct (assume_control_clean w x (T x (or_introl eq_refl))) as (P & L & O).
    destruct (IH (MU.assume_control w x)) as [P' L'].
    { intros y Hy. apply taken_over_assume_control. apply T. now right. }
    split; [congruence |].
    intros r H. apply L'.
    destruct (Nat.eq_dec r x) as [E | Hr].
    + right. rewrite E. exact L.
    + destruct H as [[E | H] | H]; [congruence | now left |].
      right. intros d. rewrite (O r Hr). apply H.
Qed.

(** X7. After [attach(c)] the group's controller is [c], every member's
    [controller] is its own adapter and no other receiver is touched; the
    members, the commands queued at their adapters, the capacity and the
    window are as before; when [c] was not already the controller,
    [c.receiver] is the group; when [c] was not already the controller, or
    no member had been taken over, every adapter's [receiver] is its
    member; and a check for taken-over members right afterwards evicts
    nobody. *)
Theorem Multireceiver_attach_establishes (w : MU.World) (c : nat) :
  let w' := MU.attach w c in
  MU.controller (MU.self w') = Some c /\
  (forall r, In r (MU.iter (MU.self w)) ->
             MU.rec_controller (MU.members w' r) = Some (MU.Adapter r)) /\
  (forall r, ~ In r (MU.iter (MU.self w)) -> MU.members w' r = MU.members w r) /\
  same_window (MU.self w) (MU.self w') /\
  (MU.controller (MU.self w) <> Some c ->
   Player.receiver (MU.players w' c) = Some Player.Group) /\
  (MU.controller (MU.self w) <> Some c \/
   (forall r, In r (MU.iter (MU.self w)) -> MU.taken_over w r = false) ->
   forall r d, MU.dict_get r (MU._rec_dict (MU.self w')) = Some d ->
               DummyController.receiver d = Some r) /\
  MU._check_controllers w' = Ok w'.
Proof.
  intros w'.
  pose proof (attach_same_window w c) as SW. fold w' in SW.
  pose proof (attach_controller_set w c) as C. fold w' in C.
  assert (K : MU.iter (MU.self (MU.super_attach w c)) = MU.iter (MU.self w)).
  { apply (same_window_keys _ _ (super_attach_same_window w c)). }
  assert (M : forall r, In r (MU.iter (MU.self w)) ->
                        MU.rec_controller (MU.members w' r) = Some (MU.Adapter r)).
  { intros r H. subst w'. unfold MU.attach.
    rewrite (proj1 (fold_assume_control_members _ _ r)), K.
    apply existsb_eqb_in in H. now rewrite H. }
  assert (F : MU.controller (MU.self w) <> Some c ->
              forall x, In x (MU.iter (MU.self w)) ->
                        MU.taken_over (MU.super_attach w c) x = false).
  { intros H x Hx. unfold MU.taken_over, MU.super_attach.
    destruct (MR.is_current c (MU.controller (MU.self w))) eqn:E;
      [apply is_current_true in E; contradiction |].
    cbn [MU.members MU.set_player MU.set_controller MU.set_self].
    rewrite detach_members. apply existsb_eqb_in in Hx. now rewrite Hx. }
  split; [exact C |]. split; [exact M |].
  split; [| split; [exact SW |]; split; [| split]].
  - intros r H. subst w'. unfold MU.attach.
    rewrite (proj2 (fold_assume_control_members _ _ r)) by now rewrite K.
    now apply super_attach_frame.
  - intros H.
    assert (T : forall x, In x (MU.iter (MU.self (MU.super_attach w c))) ->
                          MU.taken_over (MU.super_attach w c) x = false).
    { rewrite K. exact (F H). }
    subst w'. unfold MU.attach.
    rewrite (proj1 (fold_assume_control_clean _ (MU.super_attach w c) T)).
    unfold MU.super_attach.
    destruct (MR.is_current c (MU.controller (MU.self w))) eqn:E.
    + apply is_current_true in E. contradiction.
    + simpl. now rewrite upd_same.
  - intros H r d G.
    assert (T : forall x, In x (MU.iter (MU.self (MU.super_attach w c))) ->
                          MU.taken_over (MU.super_attach w c) x = false).
    { rewrite K. destruct H as [H | H]; [exact (F H) |].
      intros x Hx.
      destruct (MR.is_current c (MU.controller (MU.self w))) eqn:E.
      - unfold MU.super_attach. rewrite E. now apply H.
      - apply F; [| exact Hx]. intros E'. apply is_current_true in E'. congruence. }
    refine (proj2 (fold_assume_control_clean _ (MU.super_attach w c) T) r _ d G).
    left. rewrite K.
    assert (I : In r (MU.iter (MU.self w'))).
    { unfold MU.iter. apply dict_get_in_keys. eauto. }
    now rewrite (proj1 (same_window_keys _ _ SW)) in I.
  - destruct (check_loop_spec c (MU._rec_dict (MU.self w')) w' C)
      as (w1 & E & _ & _ & _ & _ & _ & _ & _ & _ & Hn).
    unfold MU._check_controllers. rewrite E. f_equal. apply Hn.
    apply filter_none. intros r Hr. unfold MU.taken_over.
    rewrite M; [simpl; now rewrite Nat.eqb_refl |].
    now rewrite <- (proj1 (same_window_keys _ _ SW)).
Qed.

Lemma check_loop_no_controller (snapshot : MU.dict) (w : MU.World) :
  MU.controller (MU.self w) = None ->
  MU.check_loop snapshot w =
  if existsb (MU.taken_over w) (map fst snapshot) then Raise AttributeError else Ok w.
Proof.
  intros C. induction snapshot as [| [rec d] rest IH]; simpl; [reflexivity |].
  destruct (MU.taken_over w rec); simpl; [now rewrite C | exact IH].
Qed.

(** X8. A group without external controller cannot be updated: [update]
    raises [AttributeError], whatever the members do.  The check for
    taken-over members alone raises it when some member has been taken
    over, and otherwise returns with nothing changed. *)
Theorem Multireceiver_update_needs_controller
  (member_update : nat -> list Cmd -> list Msg * list Cmd) (w : MU.World) :
  MU.controller (MU.self w) = None ->
  MU.update member_update w = Raise AttributeError /\
  MU._check_controllers w =
    if existsb (MU.taken_over w) (MU.iter (MU.self w))
    then Raise AttributeError else Ok w.
Proof.
  intros C. unfold MU.update, MU._check_controllers.
  rewrite (check_loop_no_controller _ w C). fold (MU.iter (MU.self w)).
  split; [| reflexivity].
  destruct (existsb (MU.taken_over w) (MU.iter (MU.self w))); [reflexivity |].
  now rewrite C.
Qed.

Lemma Multireceiver_update_needs_controller_witness :
  let idle := fun (_ : nat) (q : list Cmd) => (@nil Msg, q) in
  let w := MU.start [1; 2] (fun _ => Player.fresh) (fun _ => MU.mkReceiver None "A"%string) in
  MU.controller (MU.self w) = None /\
  MU.update idle w = Raise AttributeError.
Proof.
  intros idle w. assert (C : MU.controller (MU.self w) = None) by reflexivity.
  split; [exact C |]. exact (proj1 (Multireceiver_update_needs_controller idle w C)).
Defined.

(** A member's [detach()] clears the [receiver] of the controller it
    had, and sets no [receiver]. *)
Lemma member_detach_clears (w : MU.World) (x : nat) :
  let w' := MU.member_detach w x in
  (forall j d, MU.rec_controller (MU.members w x) = Some (MU.Adapter j) ->
     MU.dict_get j (MU._rec_dict (MU.self w')) = Some d ->
     DummyController.receiver d = None) /\
  (forall id, MU.rec_controller (MU.members w x) = Some (MU.External id) ->
     Player.receiver (MU.players w' id) = None) /\
  (forall j,
     (forall d, MU.dict_get j (MU._rec_dict (MU.self w)) = Some d ->
                DummyController.receiver d = None) ->
     forall d, MU.dict_get j (MU._rec_dict (MU.self w')) = Some d ->
               DummyController.receiver d = None) /\
  (forall id, Player.receiver (MU.players w id) = None ->
              Player.receiver (MU.players w' id) = None).
Proof.
  intros w'. subst w'. unfold MU.member_detach.
  destruct (MU.rec_controller (MU.members w x)) as [c |];
    [| repeat split; try discriminate; auto].
  change (MU.self (MU.set_member_controller (MU.set_receiver w c None) x None))
    with (MU.self (MU.set_receiver w c None)).
  change (MU.players (MU.set_member_controller (MU.set_receiver w c None) x None))
    with (MU.players (MU.set_receiver w c None)).
  split; [| split; [| split]].
  - intros j d E. injection E as ->. rewrite set_receiver_dict_get, Nat.eqb_refl.
    destruct (MU.dict_get j (MU._rec_dict (MU.self w))); simpl; [| discriminate].
    intros E. injection E as <-. reflexivity.
  - intros id E. injection E as ->. simpl. now rewrite upd_same.
  - intros j H d. rewrite set_receiver_dict_get. destruct c as [id | k]; [apply H |].
    destruct (Nat.eqb_spec j k) as [E | _]; [| apply H].
    destruct (MU.dict_get k (MU._rec_dict (MU.self w))); simpl; [| discriminate].
    intros E'. injection E' as <-. reflexivity.
  - intros id H. destruct c as [id' | k].
    + simpl. unfold upd. destruct (Nat.eqb id id'); [reflexivity | exact H].
    + now rewrite set_receiver_adapter_players.
Qed.

Lemma fold_member_detach_clears (l : list nat) :
  forall w,
    let w' := fold_left MU.member_detach l w in
    (forall j,
       (exists x, In x l /\ MU.rec_controller (MU.members w x) = Some (MU.Adapter j)) \/
       (forall d, MU.dict_get j (MU._rec_dict (MU.self w)) = Some d ->
                  DummyController.receiver d = None) ->
       forall d, MU.dict_get j (MU._rec_dict (MU.self w')) = Some d ->
                 DummyController.receiver d = None) /\
    (forall id,
       (exists x, In x l /\ MU.rec_controller (MU.members w x) = Some (MU.External id)) \/
       Player.receiver (MU.players w id) = None ->
       Player.receiver (MU.players w' id) = None).
Proof.
  induction l as [| x l IH]; intros w; simpl.
  - split.
    + intros j [(x & [] & _) | H]. exact H.
    + intros id [(x & [] & _) | H]. exact H.
  - destruct (IH (MU.member_detach w x)) as [A B].
    destruct (member_detach_clears w x) as (C1 & C2 & C3 & C4).
    split.
    + intros j H. apply A.
      destruct H as [(y & [E | Hy] & Hc) | H].
      * right. intros d. apply C1. now rewrite E.
      * destruct (Nat.eq_dec y x) as [E | Hne].
        -- right. intros d. apply C1. now rewrite <- E.
        -- left. exists y. split; [exact Hy |].
           rewrite member_detach_members. apply Nat.eqb_neq in Hne. now rewrite Hne.
      * right. now apply C3.
    + intros id H. apply B.
      destruct H as [(y & [E | Hy] & Hc) | H].
      * right. apply C2. now rewrite E.
      * destruct (Nat.eq_dec y x) as [E | Hne].
        -- right. apply C2. now rewrite <- E.
        -- left. exists y. split; [exact Hy |].
           rewrite member_detach_members. apply Nat.eqb_neq in Hne. now rewrite Hne.
      * right. now apply C4.
Qed.

(** X9. After [detach()] the group has no controller, the controller it
    had has [receiver] [None], every member's [controller] is [None] and
    the controller a member had, an adapter of the group or a controller
    outside it, has [receiver] [None]; no other receiver is touched; and
    the members, the commands queued at their adapters, the capacity, the
    window and every player's queues are as before: nothing queued or
    remembered is flushed. *)
Theorem Multireceiver_detach_releases (w : MU.World) :
  let w' := MU.detach w in
  MU.controller (MU.self w') = None /\
  (forall c, MU.controller (MU.self w) = Some c ->
             Player.receiver (MU.players w' c) = None) /\
  (forall r, In r (MU.iter (MU.self w)) -> MU.rec_controller (MU.members w' r) = None) /\
  (forall r, ~ In r (MU.iter (MU.self w)) -> MU.members w' r = MU.members w r) /\
  (forall r j d, In r (MU.iter (MU.self w)) ->
     MU.rec_controller (MU.members w r) = Some (MU.Adapter j) ->
     MU.dict_get j (MU._rec_dict (MU.self w')) = Some d ->
     DummyController.receiver d = None) /\
  (forall r id, In r (MU.iter (MU.self w)) ->
     MU.rec_controller (MU.members w r) = Some (MU.External id) ->
     Player.receiver (MU.players w' id) = None) /\
  same_window (MU.self w) (MU.self w') /\
  (forall id, Player._command_queue (MU.players w' id) = Player._command_queue (MU.players w id) /\
              Player._message_queue (MU.players w' id) = Player._message_queue (MU.players w id)).
Proof.
  intros w'.
  destruct (detach_relinked w) as (SW & C & Q & _). fold w' in SW, C, Q.
  set (w2 := MU.set_controller
               match MU.controller (MU.self w) with
               | Some c => MU.set_player w c (Player.set_receiver (MU.players w c) None)
               | None => w
               end None).
  assert (E : w' = fold_left MU.member_detach (MU.iter (MU.self w)) w2).
  { subst w' w2. unfold MU.detach. now destruct (MU.controller (MU.self w)). }
  assert (M2 : MU.members w2 = MU.members w).
  { subst w2. now destruct (MU.controller (MU.self w)). }
  destruct (fold_member_detach_clears (MU.iter (MU.self w)) w2) as [A B].
  rewrite <- E in A, B.
  split; [exact C |]. split; [| split; [| split; [| split; [| split; [| split]]]]].
  - intros c Hc. apply B. right. subst w2. rewrite Hc. simpl. now rewrite upd_same.
  - intros r H. subst w'. rewrite detach_members.
    apply existsb_eqb_in in H. now rewrite H.
  - intros r H. subst w'. rewrite detach_members.
    destruct (existsb (Nat.eqb r) (MU.iter (MU.self w))) eqn:X; [| reflexivity].
    apply existsb_eqb_in in X. contradiction.
  - intros r j d Hr Hc. apply A. left. exists r. split; [exact Hr |]. now rewrite M2.
  - intros r id Hr Hc. apply B. left. exists r. split; [exact Hr |]. now rewrite M2.
  - exact SW.
  - exact Q.
Qed.

(** X10. Checking for taken-over members twice in a row is the same as
    checking once: whenever the check returns, a second check returns the
    same state, so nobody is evicted or notified twice. *)
Theorem Multireceiver_check_controllers_idempotent (w w1 : MU.World) :
  MU._check_controllers w = Ok w1 -> MU._check_controllers w1 = Ok w1.
Proof.
  intros E. destruct (MU.controller (MU.self w)) as [ext |] eqn:C.
  - destruct (check_controllers_spec ext w C) as (w1' & E' & Hm & Hc & _ & Hd & _).
    assert (w1' = w1) by congruence. subst w1'.
    destruct (check_loop_spec ext (MU._rec_dict (MU.self w1)) w1 Hc)
      as (w2 & E2 & _ & _ & _ & _ & _ & _ & _ & _ & Hn).
    unfold MU._check_controllers. rewrite E2. f_equal. apply Hn.
    apply filter_none. intros r Hr. unfold MU.taken_over. rewrite Hm.
    rewrite Hd in Hr. apply in_map_iff in Hr as (e & <- & He).
    apply filter_In in He as [_ He]. apply negb_true_iff in He. exact He.
  - unfold MU._check_controllers in E. rewrite (check_loop_no_controller _ w C) in E.
    destruct (existsb (MU.taken_over w) (map fst (MU._rec_dict (MU.self w)))) eqn:X;
      [discriminate |].
    injection E as <-. unfold MU._check_controllers.
    now rewrite (check_loop_no_controller _ w C), X.
Qed.

Lemma Multireceiver_check_controllers_idempotent_witness :
  let idle := fun (_ : nat) (q : list Cmd) => (@nil Msg, q) in
  let w := MU.run idle (MU.start [1; 2; 3] (fun _ => Player.fresh)
                          (fun _ => MU.mkReceiver None "A"%string))
             [MU.Attach 0; MU.TakeOver 3 9] in
  let w1 := match MU._check_controllers w with Ok x => x | _ => w end in
  MU._check_controllers w = Ok w1 /\
  MU.iter (MU.self w1) = [1; 2] /\
  MU._check_controllers w1 = Ok w1.
Proof.
  intros idle w w1.
  assert (E : MU._check_controllers w = Ok w1) by reflexivity.
  split; [exact E |]. split; [reflexivity |].
  exact (Multireceiver_check_controllers_idempotent w w1 E).
Defined.

(** ** Player and its registry *)

Lemma lookup_none (id : nat) (d : list (nat * nat)) :
  SE.lookup id d = None <-> ~ In id (map fst d).
Proof.
  induction d as [| [k o] d IH]; simpl; [tauto |].
  destruct (Nat.eqb_spec k id) as [-> | Hk].
  - split; [discriminate | intros H; exfalso; apply H; now left].
  - rewrite IH. tauto.
Qed.

Lemma lookup_some_in (id o : nat) (d : list (nat * nat)) :
  SE.lookup id d = Some o -> In (id, o) d.
Proof.
  induction d as [| [k x] d IH]; simpl; [discriminate |].
  destruct (Nat.eqb_spec k id) as [-> | Hk].
  - intros [= ->]. now left.
  - intros H. right. now apply IH.
Qed.

Lemma lookup_app (id : nat) (d d' : list (nat * nat)) :
  SE.lookup id (d ++ d') =
  match SE.lookup id d with Some o => Some o | None => SE.lookup id d' end.
Proof.
  induction d as [| [k x] d IH]; simpl; [reflexivity |].
  destruct (Nat.eqb k id); [reflexivity | exact IH].
Qed.

Lemma lookup_delete_other (id id' : nat) (d : list (nat * nat)) :
  id' <> id -> SE.lookup id' (SE.delete id d) = SE.lookup id' d.
Proof.
  intros H. induction d as [| [k x] d IH]; simpl; [reflexivity |].
  destruct (Nat.eqb_spec k id) as [-> | Hk]; simpl.
  - apply not_eq_sym, Nat.eqb_neq in H. now rewrite H.
  - destruct (Nat.eqb k id'); [reflexivity | exact IH].
Qed.

Lemma delete_in (id : nat) (d : list (nat * nat)) :
  forall e, In e (SE.delete id d) -> In e d.
Proof.
  induction d as [| [k x] d IH]; simpl; [tauto |].
  destruct (Nat.eqb k id); simpl; intros e H; [now right |].
  destruct H as [H | H]; [now left | right; now apply IH].
Qed.

Lemma lookup_delete_same (id : nat) (d : list (nat * nat)) :
  NoDup (map fst d) -> SE.lookup id (SE.delete id d) = None.
Proof.
  induction d as [| [k x] d IH]; simpl; intros N; [reflexivity |].
  apply NoDup_cons_iff in N as [N1 N2].
  destruct (Nat.eqb_spec k id) as [-> | Hk]; simpl.
  - now apply lookup_none.
  - apply Nat.eqb_neq in Hk. rewrite Hk. now apply IH.
Qed.

Lemma delete_well_formed (id : nat) (d : list (nat * nat)) (n : nat) :
  NoDup (map fst d) /\ NoDup (map snd d) /\ Forall (fun e => snd e < n) d ->
  NoDup (map fst (SE.delete id d)) /\ NoDup (map snd (SE.delete id d)) /\
  Forall (fun e => snd e < n) (SE.delete id d).
Proof.
  induction d as [| [k x] d IH]; simpl; [auto |].
  intros (N1 & N2 & F). apply NoDup_cons_iff in N1 as [A1 A2].
  apply NoDup_cons_iff in N2 as [B1 B2]. apply Forall_cons_iff in F as [F1 F2].
  destruct (Nat.eqb k id); [auto |].
  destruct (IH (conj A2 (conj B2 F2))) as (I1 & I2 & I3). simpl.
  repeat split.
  - constructor; [| exact I1]. intros H. apply A1.
    apply in_map_iff in H as (e & <- & He). apply in_map. now apply delete_in in He.
  - constructor; [| exact I2]. intros H. apply B1.
    apply in_map_iff in H as (e & <- & He). apply in_map. now apply delete_in in He.
  - constructor; assumption.
Qed.

(** X11. Creating a [Player] fails exactly when its id is registered, and
    then changes nothing.  Otherwise it registers a new object under the
    id, with no receiver and empty queues; every other id resolves as
    before, and in a well-formed registry every object registered before
    is as it was and the registry stays well formed. *)
Theorem Player_init_registers (w : SE.World) (id : nat) :
  (In id (map fst (SE.player_ids w)) -> SE.init w id = SE.Raises SE.IdTaken w) /\
  (~ In id (map fst (SE.player_ids w)) ->
   exists w',
     SE.init w id = SE.Returns w' /\
     SE.lookup id (SE.player_ids w') = Some (SE.allocated w) /\
     SE.objects w' (SE.allocated w) = Player.fresh /\
     (forall id', id' <> id ->
        SE.lookup id' (SE.player_ids w') = SE.lookup id' (SE.player_ids w)) /\
     (SE.well_formed w ->
      SE.well_formed w' /\
      forall id' o, SE.lookup id' (SE.player_ids w) = Some o ->
                    SE.objects w' o = SE.objects w o)).
Proof.
  unfold SE.init. split; intros H.
  - destruct (SE.lookup id (SE.player_ids w)) eqn:E; [reflexivity |].
    apply lookup_none in E. contradiction.
  - apply lookup_none in H. rewrite H. eexists. split; [reflexivity |]. simpl.
    rewrite lookup_app, H. simpl. rewrite Nat.eqb_refl, upd_same.
    split; [reflexivity |]. split; [reflexivity |]. split.
    + intros id' Hne. rewrite lookup_app. simpl.
      apply not_eq_sym, Nat.eqb_neq in Hne. rewrite Hne.
      now destruct (SE.lookup id' (SE.player_ids w)).
    + intros (N1 & N2 & F). rewrite Forall_forall in F. split.
      * unfold SE.well_formed. simpl. rewrite !map_app. simpl. repeat split.
        -- apply NoDup_app; [exact N1 | repeat constructor; auto |].
           intros x Hx [Hr | []]. subst x. now apply lookup_none in H.
        -- apply NoDup_app; [exact N2 | repeat constructor; auto |].
           intros x Hx [Hr | []]. subst x.
           apply in_map_iff in Hx as (e & Ee & He). specialize (F e He). lia.
        -- apply Forall_app. split; [| repeat constructor].
           apply Forall_forall. intros e He. specialize (F e He). lia.
      * intros id' o Ho. apply upd_other.
        specialize (F _ (lookup_some_in _ _ _ Ho)). simpl in F. lia.
Qed.

Lemma Player_init_registers_witness :
  let w := match SE.init SE.empty 5 with SE.Returns x => x | SE.Raises _ x => x end in
  In 5 (map fst (SE.player_ids w)) /\
  SE.init w 5 = SE.Raises SE.IdTaken w.
Proof.
  intros w. assert (H : In 5 (map fst (SE.player_ids w))) by (simpl; auto).
  split; [exact H |]. exact (proj1 (Player_init_registers w 5) H).
Defined.

Section SessionCalls.
Variable receiver_update : Player.driven -> Players -> SE.outcome Players.
Variable receiver_detach : Player.driven -> Players -> SE.outcome Players.

(** X12. When [remove_player(id)] returns in a registry without repeated
    ids, the id is gone and every other id resolves as before; a second
    removal and a command sent to the id both raise [KeyError] and change
    nothing; and the id can be registered again. *)
Theorem Player_remove_player_frees_id (w w' : SE.World) (id : nat) :
  NoDup (map fst (SE.player_ids w)) ->
  SE.remove_player receiver_detach w id = SE.Returns w' ->
  SE.lookup id (SE.player_ids w') = None /\
  (forall id', id' <> id ->
     SE.lookup id' (SE.player_ids w') = SE.lookup id' (SE.player_ids w)) /\
  SE.remove_player receiver_detach w' id = SE.Raises SE.KeyError w' /\
  (forall cmd, SE.send_command receiver_update w' id cmd = SE.Raises SE.KeyError w') /\
  exists w'', SE.init w' id = SE.Returns w''.
Proof.
  intros N E. unfold SE.remove_player in E.
  destruct (SE.lookup id (SE.player_ids w)) as [o |] eqn:L; [| discriminate].
  assert (P : SE.player_ids w' = SE.delete id (SE.player_ids w)).
  { destruct (Player.receiver (SE.objects w o)) as [r |].
    - destruct (receiver_detach r (SE.objects w)) as [h | [] h]; try discriminate;
        injection E as <-; reflexivity.
    - injection E as <-. reflexivity. }
  assert (G : SE.lookup id (SE.player_ids w') = None).
  { rewrite P. now apply lookup_delete_same. }
  split; [exact G |]. split; [| split; [| split]].
  - intros id' Hne. rewrite P. now apply lookup_delete_other.
  - unfold SE.remove_player. now rewrite G.
  - intros cmd. unfold SE.send_command. now rewrite G.
  - unfold SE.init. rewrite G. eexists. reflexivity.
Qed.

(** X13. A command sent to a registered player that drives nothing is
    appended to the player's command queue, behind what was queued, and
    the call then raises [AttributeError]: the command stays queued, and
    nothing else changes. *)
Theorem Player_send_command_without_receiver (w : SE.World) (id o : nat) (cmd : Cmd) :
  SE.lookup id (SE.player_ids w) = Some o ->
  Player.receiver (SE.objects w o) = None ->
  exists w',
    SE.send_command receiver_update w id cmd = SE.Raises SE.AttributeError w' /\
    Player._command_queue (SE.objects w' o) =
      Player._command_queue (SE.objects w o) ++ [cmd] /\
    Player._message_queue (SE.objects w' o) = Player._message_queue (SE.objects w o) /\
    SE.player_ids w' = SE.player_ids w /\
    forall x, x <> o -> SE.objects w' x = SE.objects w x.
Proof.
  intros L R. unfold SE.send_command, SE.poke. rewrite L. simpl.
  rewrite upd_same. simpl. rewrite R. eexists. split; [reflexivity |]. simpl.
  rewrite upd_same. simpl. repeat split. intros x Hx. now apply upd_other.
Qed.

End SessionCalls.

Lemma Player_remove_player_frees_id_witness :
  let quiet := fun (_ : Player.driven) (h : Players) => SE.Returns h in
  let w := SE.run quiet quiet SE.empty [SE.New 5; SE.New 6] in
  let w' := SE.state_of (SE.remove_player quiet w 5) in
  NoDup (map fst (SE.player_ids w)) /\
  SE.remove_player quiet w 5 = SE.Returns w' /\
  SE.lookup 5 (SE.player_ids w') = None /\
  SE.lookup 6 (SE.player_ids w') = Some 1.
Proof.
  intros quiet w w'.
  assert (N : NoDup (map fst (SE.player_ids w))).
  { simpl. repeat constructor; simpl; intuition discriminate. }
  assert (E : SE.remove_player quiet w 5 = SE.Returns w') by reflexivity.
  destruct (Player_remove_player_frees_id quiet quiet w w' 5 N E) as (G & _).
  split; [exact N |]. split; [exact E |]. split; [exact G | reflexivity].
Defined.

Lemma Player_send_command_without_receiver_witness :
  let quiet := fun (_ : Player.driven) (h : Players) => SE.Returns h in
  let w := SE.run quiet quiet SE.empty [SE.New 5; SE.Send 5 "look"%string] in
  SE.lookup 5 (SE.player_ids w) = Some 0 /\
  Player.receiver (SE.objects w 0) = None /\
  exists w',
    SE.send_command quiet w 5 "walk"%string = SE.Raises SE.AttributeError w' /\
    Player._command_queue (SE.objects w' 0) = ["look"; "walk"]%string.
Proof.
  intros quiet w.
  assert (L : SE.lookup 5 (SE.player_ids w) = Some 0) by reflexivity.
  assert (R : Player.receiver (SE.objects w 0) = None) by reflexivity.
  split; [exact L |]. split; [exact R |].
  destruct (Player_send_command_without_receiver quiet w 5 0 "walk"%string L R)
    as (w' & E & Q & _).
  exists w'. split; [exact E |]. rewrite Q. reflexivity.
Defined.

(** *** receive_messages *)

Lemma drain_spec (id o : nat) (pending : list Msg) :
  forall w,
    let r := SE.drain id o pending w in
    fst r = map (pair id) pending /\
    SE.player_ids (snd r) = SE.player_ids w /\
    SE.allocated (snd r) = SE.allocated w /\
    forall x,
      Player.receiver (SE.objects (snd r) x) = Player.receiver (SE.objects w x) /\
      Player._command_queue (SE.objects (snd r) x) = Player._command_queue (SE.objects w x) /\
      Player._message_queue (SE.objects (snd r) x) =
        if Nat.eqb x o
        then match pending with [] => Player._message_queue (SE.objects w x) | _ => [] end
        else Player._message_queue (SE.objects w x).
Proof.
  induction pending as [| m rest IH]; intros w; simpl.
  - repeat split. now destruct (Nat.eqb x o).
  - set (w1 := SE.set_object w o _).
    specialize (IH w1). destruct (SE.drain id o rest w1) as [ys w2]. simpl in *.
    destruct IH as (E1 & E2 & E3 & E4). rewrite E1, E2, E3.
    repeat split; destruct (E4 x) as (F1 & F2 & F3); rewrite ?F1, ?F2, ?F3;
      subst w1; simpl; unfold upd; destruct (Nat.eqb x o) eqn:X; try reflexivity.
    all: try (apply Nat.eqb_eq in X; subst x; reflexivity).
    now destruct rest.
Qed.

Lemma flat_map_agree {A B} (f g : A -> list B) (l : list A) :
  (forall a, In a l -> f a = g a) -> flat_map f l = flat_map g l.
Proof.
  induction l as [| a l IH]; intros H; simpl; [reflexivity |].
  rewrite (H a (or_introl eq_refl)), IH; [reflexivity |].
  intros x Hx. apply H. now right.
Qed.

Lemma receive_loop_spec (items : list (nat * nat)) :
  forall w,
    NoDup (map snd items) ->
    let r := SE.receive_loop items w in
    fst r = flat_map (yields_of (SE.objects w)) items /\
    SE.player_ids (snd r) = SE.player_ids w /\
    SE.allocated (snd r) = SE.allocated w /\
    forall x,
      Player.receiver (SE.objects (snd r) x) = Player.receiver (SE.objects w x) /\
      Player._command_queue (SE.objects (snd r) x) = Player._command_queue (SE.objects w x) /\
      Player._message_queue (SE.objects (snd r) x) =
        if existsb (Nat.eqb x) (map snd items) then []
        else Player._message_queue (SE.objects w x).
Proof.
  induction items as [| [id o] rest IH]; intros w N; simpl.
  - repeat split.
  - apply NoDup_cons_iff in N as [N1 N2].
    pose proof (drain_spec id o (Player._message_queue (SE.objects w o)) w) as D.
    destruct (SE.drain id o (Player._message_queue (SE.objects w o)) w) as [ys w1].
    simpl in D. destruct D as (D1 & D2 & D3 & D4).
    specialize (IH w1 N2). destruct (SE.receive_loop rest w1) as [zs w2].
    simpl in *. destruct IH as (E1 & E2 & E3 & E4).
    rewrite E1, E2, E3, D1, D2, D3. repeat split.
    + unfold yields_of at 2. simpl. f_equal.
      apply flat_map_agree. intros e He. unfold yields_of.
      destruct (D4 (snd e)) as (_ & _ & Q). rewrite Q.
      destruct (Nat.eqb_spec (snd e) o) as [X | X]; [| reflexivity].
      exfalso. apply N1. rewrite <- X. now apply in_map.
    + destruct (E4 x) as (F1 & _). destruct (D4 x) as (G1 & _). congruence.
    + destruct (E4 x) as (_ & F2 & _). destruct (D4 x) as (_ & G2 & _). congruence.
    + destruct (E4 x) as (_ & _ & F3). destruct (D4 x) as (_ & _ & G3).
      rewrite F3, G3. destruct (existsb (Nat.eqb x) (map snd rest)).
      * now rewrite orb_true_r.
      * rewrite orb_false_r. destruct (Nat.eqb x o) eqn:X; [| reflexivity].
        apply Nat.eqb_eq in X. subst x.
        now destruct (Player._message_queue (SE.objects w o)).
Qed.

Lemma flat_map_nil {A B} (f : A -> list B) (l : list A) :
  (forall a, In a l -> f a = []) -> flat_map f l = [].
Proof.
  induction l as [| a l IH]; intros H; simpl; [reflexivity |].
  rewrite (H a (or_introl eq_refl)), IH; [reflexivity |].
  intros x Hx. apply H. now right.
Qed.

(** X14. In a registry that holds no object twice, [receive_messages] run
    to its end yields every queued message once, each with its player's
    id: the players in registry order, each player's messages oldest first.
    Afterwards no registered player has a message, command queues and
    receivers are as before, objects outside the registry are untouched,
    and a second run yields nothing. *)
Theorem Player_receive_messages_drains (w : SE.World) :
  NoDup (map snd (SE.player_ids w)) ->
  let r := SE.receive_messages w in
  fst r = flat_map (yields_of (SE.objects w)) (SE.player_ids w) /\
  SE.player_ids (snd r) = SE.player_ids w /\
  (forall id o, SE.lookup id (SE.player_ids w) = Some o ->
                Player.has_msg (SE.objects (snd r) o) = false) /\
  (forall x, Player.receiver (SE.objects (snd r) x) = Player.receiver (SE.objects w x) /\
             Player._command_queue (SE.objects (snd r) x) =
               Player._command_queue (SE.objects w x)) /\
  (forall x, ~ In x (map snd (SE.player_ids w)) ->
             SE.objects (snd r) x = SE.objects w x) /\
  fst (SE.receive_messages (snd r)) = [].
Proof.
  intros N r. subst r. unfold SE.receive_messages.
  destruct (receive_loop_spec (SE.player_ids w) w N) as (E1 & E2 & E3 & E4).
  set (r := SE.receive_loop (SE.player_ids w) w) in *.
  assert (Q : forall e, In e (SE.player_ids w) ->
                        Player._message_queue (SE.objects (snd r) (snd e)) = []).
  { intros e He. destruct (E4 (snd e)) as (_ & _ & F). rewrite F.
    assert (X : existsb (Nat.eqb (snd e)) (map snd (SE.player_ids w)) = true).
    { apply existsb_eqb_in. now apply in_map. }
    now rewrite X. }
  split; [exact E1 |]. split; [exact E2 |]. split; [| split; [| split]].
  - intros id o L. apply lookup_some_in in L. unfold Player.has_msg.
    pose proof (Q _ L) as Q'. simpl in Q'. now rewrite Q'.
  - intros x. destruct (E4 x) as (F1 & F2 & _). auto.
  - intros x Hx. destruct (E4 x) as (F1 & F2 & F3).
    destruct (existsb (Nat.eqb x) (map snd (SE.player_ids w))) eqn:X.
    + apply existsb_eqb_in in X. contradiction.
    + destruct (SE.objects (snd r) x), (SE.objects w x). simpl in *. congruence.
  - rewrite E2.
    assert (N' : NoDup (map snd (SE.player_ids w))) by exact N.
    destruct (receive_loop_spec (SE.player_ids w) (snd r) N') as (G1 & _).
    rewrite G1. apply flat_map_nil. intros e He. unfold yields_of.
    now rewrite (Q e He).
Qed.

Lemma Player_receive_messages_drains_witness :
  let h : Players :=
    upd (upd (fun _ => Player.fresh) 0 (Player.mk None [] ["a"; "b"]%string))
        1 (Player.mk None ["look"]%string ["c"]%string) in
  let w := SE.mk [(7, 1); (3, 0)] h 2 in
  NoDup (map snd (SE.player_ids w)) /\
  fst (SE.receive_messages w) = [(7, "c"); (3, "a"); (3, "b")]%string /\
  fst (SE.receive_messages (snd (SE.receive_messages w))) = [].
Proof.
  intros h w.
  assert (N : NoDup (map snd (SE.player_ids w))).
  { simpl. repeat constructor; simpl; intuition discriminate. }
  destruct (Player_receive_messages_drains w N) as (E & _ & _ & _ & _ & Z).
  split; [exact N |]. split; [rewrite E; reflexivity | exact Z].
Defined.

Section SessionHistory.
Variable receiver_update : Player.driven -> Players -> SE.outcome Players.
Variable receiver_detach : Player.driven -> Players -> SE.outcome Players.

Lemma well_formed_same_registry (w w' : SE.World) :
  SE.player_ids w' = SE.player_ids w -> SE.allocated w' = SE.allocated w ->
  SE.well_formed w -> SE.well_formed w'.
Proof. unfold SE.well_formed. intros -> ->. auto. Qed.

Lemma init_well_formed (w : SE.World) (id : nat) :
  SE.well_formed w -> SE.well_formed (SE.state_of (SE.init w id)).
Proof.
  intros W. unfold SE.init.
  destruct (SE.lookup id (SE.player_ids w)) eqn:L; [exact W |].
  apply lookup_none in L. destruct W as (N1 & N2 & F). rewrite Forall_forall in F.
  unfold SE.well_formed. simpl. rewrite !map_app. simpl. repeat split.
  - apply NoDup_app; [exact N1 | repeat constructor; auto |].
    intros x Hx [Hr | []]. now subst x.
  - apply NoDup_app; [exact N2 | repeat constructor; auto |].
    intros x Hx [Hr | []]. subst x.
    apply in_map_iff in Hx as (e & Ee & He). specialize (F e He). lia.
  - apply Forall_app. split; [| repeat constructor].
    apply Forall_forall. intros e He. specialize (F e He). lia.
Qed.

Lemma step_well_formed (w : SE.World) (c : SE.call) :
  SE.well_formed w -> SE.well_formed (SE.step receiver_update receiver_detach w c).
Proof.
  intros W. destruct c as [id | id cmd | | id]; simpl.
  - now apply init_well_formed.
  - unfold SE.send_command, SE.poke.
    destruct (SE.lookup id (SE.player_ids w)) as [o |]; [| exact W]. simpl.
    destruct (Player.receiver _) as [r |]; [| exact W].
    destruct (receiver_update r _); exact W.
  - unfold SE.receive_messages.
    assert (G : forall items v,
               SE.player_ids (snd (SE.receive_loop items v)) = SE.player_ids v /\
               SE.allocated (snd (SE.receive_loop items v)) = SE.allocated v).
    { induction items as [| [i o] rest IH]; intros v; simpl; [auto |].
      pose proof (drain_spec i o (Player._message_queue (SE.objects v o)) v) as D.
      destruct (SE.drain i o _ v) as [ys v1]. simpl in D.
      destruct D as (_ & D2 & D3 & _). specialize (IH v1).
      destruct (SE.receive_loop rest v1) as [zs v2]. simpl in *.
      destruct IH as [I1 I2]. split; congruence. }
    destruct (G (SE.player_ids w) w) as [G1 G2].
    exact (well_formed_same_registry _ _ G1 G2 W).
  - unfold SE.remove_player.
    destruct (SE.lookup id (SE.player_ids w)) as [o |]; [| exact W].
    assert (D : SE.well_formed
                  (SE.mk (SE.delete id (SE.player_ids w)) (SE.objects w) (SE.allocated w))).
    { apply delete_well_formed. exact W. }
    destruct (Player.receiver (SE.objects w o)) as [r |]; [| exact D].
    destruct (receiver_detach r (SE.objects w)) as [h | [] h]; simpl;
      first [exact W | exact D].
Qed.

(** X15. However players are created, sent commands, read and removed,
    and whatever their receivers do to them, the registry never holds an
    id twice, never holds a [Player] object under two ids, and only holds
    objects that were created. *)
Theorem Player_registry_well_formed (cs : list SE.call) :
  SE.well_formed (SE.run receiver_update receiver_detach SE.empty cs).
Proof.
  assert (G : forall w, SE.well_formed w ->
                        SE.well_formed (SE.run receiver_update receiver_detach w cs)).
  { induction cs as [| c cs IH]; intros w W; simpl; [exact W |].
    apply IH. now apply step_well_formed. }
  apply G. unfold SE.well_formed. simpl. repeat constructor.
Qed.

End SessionHistory.

(** ** character.py: text *)

Lemma str_app_assoc (a b c : string) : ((a ++ b) ++ c = a ++ (b ++ c))%string.
Proof. induction a as [| x a IH]; simpl; [reflexivity | now rewrite IH]. Qed.

Lemma str_app_nil_r (a : string) : (a ++ "" = a)%string.
Proof. induction a as [| x a IH]; simpl; [reflexivity | now rewrite IH]. Qed.

Lemma lstrip_clean (s : string) : Text.starts_with_space (Text.lstrip s) = false.
Proof.
  induction s as [| c s IH]; simpl; [reflexivity |].
  destruct (Text.isspace c) eqn:E; [exact IH | simpl; exact E].
Qed.

Lemma rstrip_keeps_start (s : string) :
  Text.starts_with_space s = false -> Text.starts_with_space (Text.rstrip s) = false.
Proof.
  destruct s as [| c s]; simpl; [reflexivity |]. intros E.
  destruct (Text.rstrip s); [rewrite E |]; simpl; exact E.
Qed.

Lemma rstrip_clean (s : string) : Text.ends_with_space (Text.rstrip s) = false.
Proof.
  induction s as [| c s IH]; simpl; [reflexivity |].
  destruct (Text.rstrip s) as [| d r] eqn:R.
  - destruct (Text.isspace c) eqn:E; simpl; [reflexivity | exact E].
  - simpl in *. exact IH.
Qed.

Lemma rstrip_fixed (s : string) : Text.ends_with_space s = false -> Text.rstrip s = s.
Proof.
  induction s as [| c s IH]; simpl; [reflexivity |].
  destruct s as [| d r].
  - simpl. intros E. now rewrite E.
  - intros E. rewrite (IH E). reflexivity.
Qed.

Lemma lstrip_fixed (s : string) : Text.starts_with_space s = false -> Text.lstrip s = s.
Proof. destruct s as [| c s]; simpl; [reflexivity |]. intros E. now rewrite E. Qed.

Lemma strip_clean (s : string) :
  Text.starts_with_space (Text.strip s) = false /\
  Text.ends_with_space (Text.strip s) = false.
Proof.
  unfold Text.strip. split.
  - apply rstrip_keeps_start, lstrip_clean.
  - apply rstrip_clean.
Qed.

Lemma strip_fixed (s : string) :
  Text.starts_with_space s = false -> Text.ends_with_space s = false -> Text.strip s = s.
Proof. intros A B. unfold Text.strip. rewrite (lstrip_fixed s A). now apply rstrip_fixed. Qed.



Lemma space_is_space (c : ascii) : Text.isspace c = false -> Ascii.eqb c " " = false.
Proof. intros H. destruct (Ascii.eqb_spec c " ") as [-> | _]; [discriminate | reflexivity]. Qed.

Lemma spaced_marked (name : string) :
  forall output, CH.spaced output name = (output ++ CH.marked name)%string.
Proof.
  induction name as [| c name IH]; intros output; simpl.
  - now rewrite str_app_nil_r.
  - rewrite IH. destruct (Text.upper_is_same c); simpl;
      rewrite !str_app_assoc; reflexivity.
Qed.

Lemma marked_end (name : string) :
  Text.no_space name = true ->
  forall c, Text.isspace c = false ->
            Text.ends_with_space (String c (CH.marked name)) = false.
Proof.
  induction name as [| d name IH]; simpl; intros N c E; [exact E |].
  apply andb_true_iff in N as [N1 N2]. apply negb_true_iff in N1.
  specialize (IH N2 d N1).
  destruct (Text.upper_is_same d); exact IH.
Qed.

Lemma camel_to_space_marked (c : ascii) (rest : string) :
  Text.no_space (String c rest) = true ->
  CH.camel_to_space (String c rest) = String c (CH.marked rest).
Proof.
  simpl. intros N. apply andb_true_iff in N as [N1 N2]. apply negb_true_iff in N1.
  unfold CH.camel_to_space. rewrite spaced_marked. cbn [append].
  assert (L : Text.lstrip (CH.marked (String c rest)) = String c (CH.marked rest)).
  { simpl. destruct (Text.upper_is_same c); simpl; now rewrite N1. }
  unfold Text.strip. rewrite L. apply rstrip_fixed. now apply marked_end.
Qed.

Lemma unspace_marked (name : string) :
  Text.no_space name = true -> Text.unspace (CH.marked name) = name.
Proof.
  induction name as [| c name IH]; simpl; [reflexivity |]. intros N.
  apply andb_true_iff in N as [N1 N2]. apply negb_true_iff in N1.
  pose proof (space_is_space c N1) as E.
  destruct (Text.upper_is_same c); simpl; rewrite E, (IH N2); reflexivity.
Qed.




(** X17. For a name without whitespace, taking the spaces out of
    [camel_to_space name] gives the name back; and for every name, the
    result neither begins nor ends with whitespace. *)
Theorem camel_to_space_round_trip (name : string) :
  (Text.no_space name = true -> Text.unspace (CH.camel_to_space name) = name) /\
  Text.starts_with_space (CH.camel_to_space name) = false /\
  Text.ends_with_space (CH.camel_to_space name) = false.
Proof.
  split; [| apply strip_clean].
  intros N. destruct name as [| c rest]; [reflexivity |].
  rewrite (camel_to_space_marked c rest N). simpl in N.
  apply andb_true_iff in N as [N1 N2]. apply negb_true_iff in N1.
  simpl. rewrite (space_is_space c N1). now rewrite unspace_marked.
Qed.

Lemma camel_to_space_round_trip_witness :
  Text.no_space "DarkWizard" = true /\
  Text.unspace (CH.camel_to_space "DarkWizard") = "DarkWizard"%string.
Proof.
  split; [reflexivity |].
  exact (proj1 (camel_to_space_round_trip "DarkWizard") eq_refl).
Defined.

(** *** parse_command *)






(** *** Character.update *)

Section CharacterUpdate.
Variable State : Type.
Variable commands :
  string -> option (string -> State -> list CH.value * option CH.value * State).

Lemma update_loop_app (q1 q2 : list Cmd) :
  forall st out,
    CH.update_loop State commands (q1 ++ q2) st out =
    CH.update_loop State commands q2 (fst (CH.update_loop State commands q1 st out)) (snd (CH.update_loop State commands q1 st out)).
Proof.
  induction q1 as [| line q1 IH]; intros st out; simpl; [reflexivity |].
  destruct (Text.strip line); [apply IH |].
  destruct (CH.parse_command State commands st line) as [[msgs raised] st'].
  apply IH.
Qed.

Lemma update_loop_appends (q : list Cmd) :
  forall st out, exists added, snd (CH.update_loop State commands q st out) = out ++ added.
Proof.
  induction q as [| line q IH]; intros st out; simpl.
  - exists []. now rewrite app_nil_r.
  - destruct (Text.strip line); [apply IH |].
    destruct (CH.parse_command State commands st line) as [[msgs raised] st'].
    destruct (IH st' (match raised with Some ex => (out ++ msgs) ++ [ex] | None => out ++ msgs end))
      as [added E].
    rewrite E. destruct raised as [ex |].
    + exists (msgs ++ [ex] ++ added). now rewrite <- !app_assoc.
    + exists (msgs ++ added). now rewrite <- !app_assoc.
Qed.

(** X19. [Character.update] without controller raises [AttributeError].
    With one it returns, leaves the command queue empty, and only appends
    to the message queue.  Commands are handled strictly in queue order:
    handling a queue is handling any front part of it and then the rest,
    from the state and messages the front part left. *)
Theorem Character_update_in_order (st : State) :
  CH.update State commands st None = Raise AttributeError /\
  (forall c, exists st' added,
     CH.update State commands st (Some c) =
       Ok (st', CH.mkCtl [] (CH.ctl_messages c ++ added))) /\
  (forall q1 q2 out,
     CH.update_loop State commands (q1 ++ q2) st out =
     CH.update_loop State commands q2 (fst (CH.update_loop State commands q1 st out)) (snd (CH.update_loop State commands q1 st out))).
Proof.
  split; [reflexivity |]. split.
  - intros c. unfold CH.update.
    destruct (update_loop_appends (CH.ctl_commands c) st (CH.ctl_messages c)) as [added E].
    destruct (CH.update_loop State commands (CH.ctl_commands c) st (CH.ctl_messages c)) as [st' out].
    simpl in E. subst out. now exists st', added.
  - intros q1 q2 out. apply update_loop_app.
Qed.

(** X20. Lines that are empty or all whitespace are skipped.  Every other
    line whose first word is not a command produces exactly one message,
    the exception ["Command '<word>' not recognized."], and leaves the
    state alone -- also a line that begins with a space, whose word is
    empty.  So a queue without any known command yields one such message
    per non-blank line, in queue order, and [update] carries on to the end
    of the queue. *)
Theorem Character_update_unrecognized (q : list Cmd) (st : State) (out : list CH.value) :
  (forall line, In line q -> Text.blank line = false ->
                commands (Text.first_word line) = None) ->
  CH.update_loop State commands q st out =
  (st, out ++ map (fun line => CH.not_recognized (Text.first_word line))
                  (filter (fun line => negb (Text.blank line)) q)).
Proof.
  revert out. induction q as [| line q IH]; intros out H; simpl.
  - now rewrite app_nil_r.
  - assert (H' : forall l, In l q -> Text.blank l = false ->
                           commands (Text.first_word l) = None).
    { intros l Hl. apply H. now right. }
    specialize (H line (or_introl eq_refl)). unfold Text.blank in *.
    destruct (Text.strip line) eqn:S; simpl.
    + now apply IH.
    + unfold CH.parse_command. rewrite (H eq_refl). rewrite app_nil_r.
      rewrite (IH _ H'). now rewrite <- app_assoc.
Qed.

End CharacterUpdate.

Lemma Character_update_unrecognized_witness :
  let commands := fun c : string =>
    if String.eqb c "look"
    then Some (fun (_ : string) (n : nat) => ([CH.Text_ "a room"], @None CH.value, S n))
    else None in
  let q := ["fly"; "   "; " look"]%string in
  (forall line, In line q -> Text.blank line = false ->
                commands (Text.first_word line) = None) /\
  CH.update_loop nat commands q 0 [] =
    (0, [CH.Exc "Command 'fly' not recognized."; CH.Exc "Command '' not recognized."]%string).
Proof.
  intros commands q.
  assert (H : forall line, In line q -> Text.blank line = false ->
                           commands (Text.first_word line) = None).
  { intros line [<- | [<- | [<- | []]]] B; reflexivity. }
  split; [exact H |].
  rewrite (Character_update_unrecognized nat commands q 0 [] H). reflexivity.
Defined.

(** *** Character.set_name *)

Lemma set_names_same (f : string -> option nat) k v : CH.set_names f k v k = v.
Proof. unfold CH.set_names. now rewrite String.eqb_refl. Qed.

Lemma set_names_other (f : string -> option nat) k v x :
  x <> k -> CH.set_names f k v x = f x.
Proof. intros H. unfold CH.set_names. apply String.eqb_neq in H. now rewrite H. Qed.

(** X21. [set_name] raises "Name already taken." exactly when the new name
    is registered -- also when it is the character's own current name.
    In a consistent registry a free name is always accepted, without
    [KeyError]: afterwards the name belongs to the character, the name it
    had is free, every other name and character is as before, and the
    registry is consistent again. *)
Theorem Character_set_name_registry (w : CH.Names) (self : nat) (new_name : string) :
  (forall c, CH.names w new_name = Some c -> CH.set_name w self new_name = inr CH.NameTaken) /\
  (CH.consistent w -> CH.name w self = Some new_name ->
   CH.set_name w self new_name = inr CH.NameTaken) /\
  (CH.consistent w -> CH.names w new_name = None ->
   exists w',
     CH.set_name w self new_name = inl w' /\
     CH.names w' new_name = Some self /\
     CH.name w' self = Some new_name /\
     (forall old, CH.name w self = Some old -> CH.names w' old = None) /\
     (forall n, n <> new_name -> CH.name w self <> Some n -> CH.names w' n = CH.names w n) /\
     (forall c, c <> self -> CH.name w' c = CH.name w c) /\
     CH.consistent w').
Proof.
  split; [| split].
  - intros c H. unfold CH.set_name. now rewrite H.
  - intros W H. apply W in H. unfold CH.set_name. now rewrite H.
  - intros W F. unfold CH.set_name. rewrite F.
    destruct (CH.name w self) as [old |] eqn:N.
    + assert (O : CH.names w old = Some self) by now apply W.
      rewrite O. assert (D : old <> new_name) by congruence.
      eexists. split; [reflexivity |]. simpl.
      rewrite set_names_same, upd_same. repeat split.
      * intros o [= <-]. rewrite set_names_other by exact D. apply set_names_same.
      * intros n Hn Ho. rewrite set_names_other by exact Hn.
        apply set_names_other. congruence.
      * intros c Hc. now apply upd_other.
      * simpl. unfold upd, CH.set_names.
        destruct (String.eqb_spec n new_name) as [-> | Hn].
        -- intros [= <-]. now rewrite Nat.eqb_refl.
        -- destruct (String.eqb_spec n old) as [-> | Ho]; [discriminate |].
           intros H. destruct (Nat.eqb_spec c self) as [-> | Hc].
           ++ apply W in H. congruence.
           ++ now apply W.
      * simpl. unfold upd, CH.set_names.
        destruct (Nat.eqb_spec c self) as [-> | Hc].
        -- intros [= <-]. now rewrite String.eqb_refl.
        -- intros H. destruct (String.eqb_spec n new_name) as [-> | Hn].
           ++ apply W in H. congruence.
           ++ destruct (String.eqb_spec n old) as [-> | Ho].
              ** apply W in H. congruence.
              ** now apply W.
    + eexists. split; [reflexivity |]. simpl.
      rewrite set_names_same, upd_same. repeat split.
      * discriminate.
      * intros n Hn _. now apply set_names_other.
      * intros c Hc. now apply upd_other.
      * simpl. unfold upd, CH.set_names.
        destruct (String.eqb_spec n new_name) as [-> | Hn].
        -- intros [= <-]. now rewrite Nat.eqb_refl.
        -- intros H. destruct (Nat.eqb_spec c self) as [-> | Hc].
           ++ apply W in H. congruence.
           ++ now apply W.
      * simpl. unfold upd, CH.set_names.
        destruct (Nat.eqb_spec c self) as [-> | Hc].
        -- intros [= <-]. now rewrite String.eqb_refl.
        -- intros H. destruct (String.eqb_spec n new_name) as [-> | Hn].
           ++ apply W in H. congruence.
           ++ now apply W.
Qed.

Lemma Character_set_name_registry_witness :
  let w0 := CH.mkNames (fun _ => None) (fun _ => None) in
  let w := match CH.set_name w0 1 "Gandalf" with inl x => x | inr _ => w0 end in
  CH.names w "Gandalf"%string = Some 1 /\
  CH.set_name w 1 "Gandalf" = inr CH.NameTaken /\
  CH.set_name w 2 "Gandalf" = inr CH.NameTaken.
Proof.
  intros w0 w.
  assert (H : CH.names w "Gandalf"%string = Some 1) by reflexivity.
  destruct (Character_set_name_registry w 1 "Gandalf") as (A & _).
  destruct (Character_set_name_registry w 2 "Gandalf") as (B & _).
  split; [exact H |]. split; [exact (A 1 H) | exact (B 1 H)].
Defined.

(** *** Character.attach *)

(** X22. [Character.attach(c)] with [c] not yet the controller makes [c]
    the character's controller, sets [c.character], and clears the
    [receiver] of the controller it had; but it leaves [c.receiver] as it
    was, so a controller that drove nothing still has [receiver] [None]
    after the character attached to it.  No other character changes.
    With [c] already the controller nothing changes. *)
Theorem Character_attach_links (h : CH.Links) (self ctrl : nat) :
  (CH.controller h self = Some ctrl -> CH.attach h self ctrl = h) /\
  (CH.controller h self <> Some ctrl ->
   let h' := CH.attach h self ctrl in
   CH.controller h' self = Some ctrl /\
   CH.character h' ctrl = Some self /\
   CH.receiver h' ctrl = CH.receiver h ctrl /\
   (forall c0, CH.controller h self = Some c0 -> CH.receiver h' c0 = None) /\
   (forall x, x <> self -> CH.controller h' x = CH.controller h x)).
Proof.
  split.
  - intros H. unfold CH.attach. apply is_current_true in H. now rewrite H.
  - intros H h'. subst h'. unfold CH.attach.
    destruct (MR.is_current ctrl (CH.controller h self)) eqn:E.
    { apply is_current_true in E. contradiction. }
    unfold CH.detach_soft. destruct (CH.controller h self) as [c0 |] eqn:C; simpl.
    + assert (D : ctrl <> c0) by congruence.
      rewrite !upd_same. repeat split.
      * now apply upd_other.
      * intros c [= <-]. apply upd_same.
      * intros x Hx. now rewrite !upd_other by exact Hx.
    + rewrite !upd_same. repeat split.
      * discriminate.
      * intros x Hx. now apply upd_other.
Qed.

Lemma Character_attach_links_witness :
  let h := CH.mkLinks (upd (fun _ => None) 1 (Some 7))
                      (upd (fun _ => None) 7 (Some 1))
                      (fun _ => None) in
  CH.controller h 1 <> Some 8 /\
  CH.controller (CH.attach h 1 8) 1 = Some 8 /\
  CH.receiver (CH.attach h 1 8) 8 = None /\
  CH.receiver (CH.attach h 1 8) 7 = None.
Proof.
  intros h. assert (H : CH.controller h 1 <> Some 8) by discriminate.
  destruct (proj2 (Character_attach_links h 1 8) H) as (A & _ & B & C & _).
  split; [exact H |]. split; [exact A |]. split.
  - rewrite B. reflexivity.
  - apply C. reflexivity.
Defined.

Lemma Multireceiver_attach_establishes_witness :
  let w := MU.start [1; 2] (fun _ => Player.fresh) (fun _ => MU.mkReceiver None "A"%string) in
  MU.controller (MU.self w) <> Some 0 /\
  Player.receiver (MU.players (MU.attach w 0) 0) = Some Player.Group /\
  MU.rec_controller (MU.members (MU.attach w 0) 2) = Some (MU.Adapter 2) /\
  forall d, MU.dict_get 2 (MU._rec_dict (MU.self (MU.attach w 0))) = Some d ->
            DummyController.receiver d = Some 2.
Proof.
  intros w. assert (H : MU.controller (MU.self w) <> Some 0) by discriminate.
  destruct (Multireceiver_attach_establishes w 0) as (_ & M & _ & _ & R & L & _).
  split; [exact H |]. split; [exact (R H) |]. split; [apply M; simpl; auto |].
  exact (L (or_introl H) 2).
Defined.

(** ** Multireceiver: members never come back *)

Lemma filter_keys_incl (p : nat * DummyController.t -> bool) (d : MU.dict) :
  incl (map fst (filter p d)) (map fst d) /\
  (NoDup (map fst d) -> NoDup (map fst (filter p d))).
Proof.
  split.
  - intros k Hk. apply in_map_iff in Hk as (e & <- & He).
    apply filter_In in He as [He _]. now apply in_map.
  - induction d as [| e d IH]; simpl; intros N; [constructor |].
    apply NoDup_cons_iff in N as [N1 N2]. destruct (p e); simpl; [| now apply IH].
    constructor; [| now apply IH]. intros H. apply N1.
    apply in_map_iff in H as (x & <- & Hx). apply filter_In in Hx as [Hx _].
    now apply in_map.
Qed.

Lemma members_within_refl (m : MU.t) : members_within m m.
Proof. split; [apply incl_refl | auto]. Qed.

Lemma members_within_trans (a b c : MU.t) :
  members_within a b -> members_within b c -> members_within a c.
Proof.
  intros [A1 A2] [B1 B2]. split; [eapply incl_tran; eassumption | auto].
Qed.

Lemma members_within_same_dict (m m' : MU.t) :
  MU._rec_dict m' = MU._rec_dict m -> members_within m m'.
Proof. intros E. unfold members_within, MU.iter. rewrite E. split; [apply incl_refl | auto]. Qed.

Lemma members_within_same_keys (m m' : MU.t) :
  MU.iter m' = MU.iter m -> members_within m m'.
Proof. intros E. unfold members_within. rewrite E. split; [apply incl_refl | auto]. Qed.

Lemma check_loop_members (snapshot : MU.dict) :
  forall w w1, MU.check_loop snapshot w = Ok w1 -> members_within (MU.self w) (MU.self w1).
Proof.
  induction snapshot as [| [rec d] rest IH]; intros w w1 E; simpl in E.
  - injection E as <-. apply members_within_refl.
  - destruct (MU.taken_over w rec); [| now apply IH].
    destruct (MU.controller (MU.self w)) as [ext |]; [| discriminate].
    eapply members_within_trans; [| exact (IH _ _ E)].
    unfold members_within, MU.iter. simpl. apply filter_keys_incl.
Qed.

Lemma message_members (w : MU.World) (rec : MU.source) (msg : Msg) :
  members_within (MU.self w) (MU.self (MU._message w rec msg)).
Proof.
  apply members_within_same_dict.
  now destruct (message_cases w rec msg) as (_ & Hd & _).
Qed.

Lemma fold_write_msg_members (dummy : DummyController.t) (msgs : list Msg) :
  forall w, members_within (MU.self w)
              (MU.self (fold_left (fun w m => MU.write_msg w dummy m) msgs w)).
Proof.
  induction msgs as [| m msgs IH]; intros w; simpl; [apply members_within_refl |].
  eapply members_within_trans; [apply message_members | apply IH].
Qed.

Section MembersHistory.
Variable member_update : nat -> list Cmd -> list Msg * list Cmd.

Lemma update_member_members (w w' : MU.World) (rec : nat) :
  MU.update_member member_update w rec = inl w' ->
  members_within (MU.self w) (MU.self w').
Proof.
  unfold MU.update_member. intros E.
  destruct (MU.rec_controller (MU.members w rec)) as [[id | k] |]; [| | discriminate].
  - destruct (member_update rec (Player._command_queue (MU.players w id))) as [msgs unread].
    injection E as <-. apply members_within_refl.
  - destruct (MU.dict_get k (MU._rec_dict (MU.self w))) as [dummy |] eqn:G;
      [| injection E as <-; apply members_within_refl].
    destruct (member_update rec (DummyController._command_queue dummy)) as [msgs unread].
    injection E as <-.
    eapply members_within_trans; [| apply fold_write_msg_members].
    apply members_within_same_keys. unfold MU.iter. simpl. rewrite dict_set_keys.
    assert (X : existsb (Nat.eqb k) (map fst (MU._rec_dict (MU.self w))) = true).
    { apply existsb_eqb_in. apply dict_get_in_keys. eauto. }
    now rewrite X.
Qed.

Lemma update_members_members (l : list nat) :
  forall w, members_within (MU.self w)
              (MU.self (fst (MU.update_members member_update l w))).
Proof.
  induction l as [| r l IH]; intros w; simpl; [apply members_within_refl |].
  destruct (MU.update_member member_update w r) as [w' | e] eqn:E;
    [| apply members_within_refl].
  eapply members_within_trans; [exact (update_member_members w w' r E) | apply IH].
Qed.

Lemma step_members (w : MU.World) (o : MU.op) :
  members_within (MU.self w) (MU.self (MU.step member_update w o)).
Proof.
  destruct o as [c | | | rec msg | rec c | rec | c cmd]; simpl.
  - apply members_within_same_keys. apply (same_window_keys _ _ (attach_same_window w c)).
  - apply members_within_same_keys. apply (same_window_keys _ _ (detach_same_window w)).
  - unfold MU.after_update, MU._check_controllers.
    destruct (MU.check_loop (MU._rec_dict (MU.self w)) w) as [w1 | e |] eqn:C;
      try apply members_within_refl.
    destruct (MU.controller (MU.self w1)) as [ext |];
      [| exact (check_loop_members _ _ _ C)].
    eapply members_within_trans; [exact (check_loop_members _ _ _ C) |].
    eapply members_within_trans; [| apply update_members_members].
    apply members_within_same_keys. unfold MU.iter.
    destruct (fan_out_frame (Player._command_queue (MU.players w1 ext)) ext w1)
      as (_ & _ & _ & _ & Hd).
    rewrite Hd, map_map. reflexivity.
  - apply message_members.
  - apply members_within_same_keys. apply same_window_keys.
    apply (relinked_trans _ _ _ (member_detach_relinked w rec)
             (member_attach_relinked _ rec (MU.External c))).
  - apply members_within_same_keys. apply same_window_keys.
    apply member_detach_relinked.
  - apply members_within_refl.
Qed.

Lemma run_members (ops : list MU.op) :
  forall w, members_within (MU.self w) (MU.self (MU.run member_update w ops)).
Proof.
  induction ops as [| o ops IH]; intros w; simpl; [apply members_within_refl |].
  eapply members_within_trans; [apply step_members | apply IH].
Qed.

(** X23. Whatever happens to a group -- attach, detach, update, routed
    messages, take-overs and releases of members, queued commands -- its
    members stay distinct and are always among the receivers it was built
    from; and who is a member later in a history was one earlier, so an
    evicted member never comes back. *)
Theorem Multireceiver_members_only_shrink
  (receivers : list nat) (ps : Players) (ms : nat -> MU.Receiver)
  (before after : list MU.op) :
  let w0 := MU.start receivers ps ms in
  let w1 := MU.run member_update w0 before in
  let w2 := MU.run member_update w0 (before ++ after) in
  NoDup (MU.iter (MU.self w2)) /\
  incl (MU.iter (MU.self w2)) receivers /\
  incl (MU.iter (MU.self w2)) (MU.iter (MU.self w1)).
Proof.
  intros w0 w1 w2.
  assert (E : w2 = MU.run member_update w1 after).
  { subst w2 w1. unfold MU.run. apply fold_left_app. }
  destruct (run_members before w0) as [A1 A2]. fold w1 in A1, A2.
  destruct (run_members after w1) as [B1 B2]. rewrite <- E in B1, B2.
  assert (N0 : NoDup (MU.iter (MU.self w0))).
  { apply init_loop_nodup. constructor. }
  assert (I0 : incl (MU.iter (MU.self w0)) receivers).
  { intros r Hr. unfold w0, MU.start, MU.iter in Hr. simpl in Hr.
    apply dict_get_in_keys in Hr as [v Hv]. rewrite init_loop_entries in Hv.
    destruct (existsb (Nat.eqb r) receivers) eqn:X; [| discriminate].
    now apply existsb_eqb_in. }
  split; [auto |]. split; [| exact B1].
  eapply incl_tran; [exact B1 |]. eapply incl_tran; [exact A1 | exact I0].
Qed.

End MembersHistory.
